(** * spotipie: token, scope, resource identifiers and OAuth2 sessions

    A shallow embedding of [spotipie/utils.py], [spotipie/auth/_token.py],
    [spotipie/auth/events.py] and [spotipie/auth/sessions.py], followed by
    the properties of that code.

    Conventions of the embedding:
    - a Python [str] is a [string]; a character stands for a code point
      below 256;
    - a Python class becomes a module holding a record and its methods;
    - a Python exception is a value of [exn], and a call that may raise
      returns a [Result];
    - a Python [float] is an IEEE 754 binary64 number, a Python [int] an
      unbounded integer; arithmetic that mixes them converts the [int],
      which raises [OverflowError] beyond the range of binary64;
    - [time.time()] is the float handed to the code that reads the
      clock. *)

From Stdlib Require Import String Ascii List Bool ZArith NArith Lia.
From Stdlib Require Import SpecFloat Permutation Sorted.
Import ListNotations.
Open Scope string_scope.

Set Implicit Arguments.

(* ------------------------------------------------------------------ *)
(** ** Python values, exceptions and results *)

(** A [float]: a binary64 number, with the operations of the standard
    library's specification of IEEE 754 at precision 53 and maximal
    exponent 1024 (round to nearest, ties to even). *)
Definition float : Type := spec_float.

(** [x + y] and [x - y] on floats. *)
Definition float_add (x y : float) : float := SFadd 53 1024 x y.

Definition float_sub (x y : float) : float := SFsub 53 1024 x y.

(** [x <= y] on floats; false when either is NaN. *)
Definition float_le (x y : float) : bool := SFleb x y.

(** The float nearest to an integer; an infinity when the integer is
    beyond the range of binary64. *)
Definition float_of_Z (z : Z) : float := binary_normalize 53 1024 z 0 false.

(** The values that travel through token maps: JSON-like scalars and flat
    collections of strings (the only collections the annotated types of
    the token mention: [Tuple[str, ...]] and [Iterable[str]]). *)
Inductive PyVal : Type :=
| PNone
| PBool (b : bool)
| PInt (z : Z)
| PFloat (x : float)
| PStr (s : string)
| PList (l : list string)
| PTuple (l : list string).

Inductive exn : Type :=
| TypeError
| ValueError
| OverflowError
| AccessDenied
| AuthorizationException (arg : PyVal)
| ExternalError (name : string).

Inductive Result (A : Type) : Type :=
| Ok (a : A)
| Raise (e : exn).
Arguments Ok {A} a.
Arguments Raise {A} e.

Definition rbind {A B : Type} (r : Result A) (f : A -> Result B) : Result B :=
  match r with
  | Ok a => f a
  | Raise e => Raise e
  end.

Declare Scope result_scope.
Delimit Scope result_scope with res.
Notation "x <- r ;; k" := (rbind r (fun x => k))
  (at level 61, r at next level, right associativity) : result_scope.

(** Truth value of a Python value ([bool(v)]). *)
Definition truthy (v : PyVal) : bool :=
  match v with
  | PNone => false
  | PBool b => b
  | PInt z => negb (z =? 0)%Z
  | PFloat x => match x with S754_zero _ => false | _ => true end
  | PStr s => negb (String.eqb s EmptyString)
  | PList l | PTuple l => match l with [] => false | _ => true end
  end.

(** A number as Python arithmetic sees it: an [int] or a [float]. *)
Inductive num : Type :=
| NInt (z : Z)
| NFloat (x : float).

(** Numeric reading of a value ([bool] is a subtype of [int]); [None]
    for non-numbers. *)
Definition py_num (v : PyVal) : option num :=
  match v with
  | PBool b => Some (NInt (if b then 1 else 0))
  | PInt z => Some (NInt z)
  | PFloat x => Some (NFloat x)
  | _ => None
  end.

(** The conversion of an [int] operand that float arithmetic performs:
    correctly rounded, [OverflowError] ("int too large to convert to
    float") when the result is not finite. *)
Definition float_of_int (z : Z) : Result float :=
  match float_of_Z z with
  | S754_infinity _ => Raise OverflowError
  | x => Ok x
  end.

Definition as_float (n : num) : Result float :=
  match n with
  | NInt z => float_of_int z
  | NFloat x => Ok x
  end.

(** [a - b] on numbers: exact on two ints, in binary64 otherwise. *)
Definition py_sub (a b : num) : Result num :=
  match a, b with
  | NInt x, NInt y => Ok (NInt (x - y))
  | _, _ =>
      (x <- as_float a ;; y <- as_float b ;; Ok (NFloat (float_sub x y)))%res
  end.

(** The exact comparison of a float with an int (Python compares the
    two values without converting the int); [None] for NaN. *)
Definition float_compare_int (x : float) (z : Z) : option comparison :=
  match x with
  | S754_nan => None
  | S754_infinity s => Some (if s then Lt else Gt)
  | S754_zero _ => Some (0 ?= z)%Z
  | S754_finite s m e =>
      let mz := cond_Zopp s (Zpos m) in
      Some (match e with
            | Zneg p => (mz ?= z * 2 ^ Zpos p)%Z
            | _ => (mz * 2 ^ e ?= z)%Z
            end)
  end.

(** [x >= n] for a float [x]. *)
Definition float_ge_num (x : float) (n : num) : bool :=
  match n with
  | NFloat y => float_le y x
  | NInt z =>
      match float_compare_int x z with
      | Some Gt | Some Eq => true
      | _ => false
      end
  end.

(** [a == b] on numbers. *)
Definition num_eqb (a b : num) : bool :=
  match a, b with
  | NInt x, NInt y => (x =? y)%Z
  | NFloat x, NFloat y => SFeqb x y
  | NFloat x, NInt z | NInt z, NFloat x =>
      match float_compare_int x z with
      | Some Eq => true
      | _ => false
      end
  end.

(** Python [==] on values. *)
Definition py_eq (a b : PyVal) : bool :=
  match py_num a, py_num b with
  | Some x, Some y => num_eqb x y
  | _, _ =>
      match a, b with
      | PNone, PNone => true
      | PStr s, PStr t => String.eqb s t
      | PList l, PList m => if list_eq_dec string_dec l m then true else false
      | PTuple l, PTuple m => if list_eq_dec string_dec l m then true else false
      | _, _ => false
      end
  end.

(** [x in l] for a list [l]. *)
Definition py_in (x : PyVal) (l : list PyVal) : bool := existsb (py_eq x) l.

(* ------------------------------------------------------------------ *)
(** ** String primitives *)

(** [str.isspace] on one character. *)
Definition isspace (c : ascii) : bool :=
  let n := N_of_ascii c in
  ((9 <=? n) && (n <=? 13) || (28 <=? n) && (n <=? 32)
   || (n =? 133) || (n =? 160))%N.

(** [str.isalnum] on one character: letters, decimal digits, and the
    characters Unicode counts as digits or numbers. *)
Definition isalnum_char (c : ascii) : bool :=
  let n := N_of_ascii c in
  ((48 <=? n) && (n <=? 57) || (65 <=? n) && (n <=? 90)
   || (97 <=? n) && (n <=? 122)
   || (n =? 170) || (n =? 178) || (n =? 179) || (n =? 181)
   || (n =? 185) || (n =? 186) || (188 <=? n) && (n <=? 190)
   || (192 <=? n) && (n <=? 214) || (216 <=? n) && (n <=? 246)
   || (248 <=? n) && (n <=? 255))%N.

Fixpoint all_chars (p : ascii -> bool) (s : string) : bool :=
  match s with
  | EmptyString => true
  | String c r => p c && all_chars p r
  end.

(** [s.isalnum()]: every character is alphanumeric and there is at least
    one character. *)
Definition isalnum (s : string) : bool :=
  match s with
  | EmptyString => false
  | _ => all_chars isalnum_char s
  end.

(** [c != sep]. *)
Definition not_char (sep c : ascii) : bool := negb (Ascii.eqb c sep).

(** [s.split(sep)] for a one-character separator: never empty. *)
Fixpoint split (sep : ascii) (s : string) : list string :=
  match s with
  | EmptyString => [EmptyString]
  | String c r =>
      if Ascii.eqb c sep then EmptyString :: split sep r
      else match split sep r with
           | w :: ws => String c w :: ws
           | [] => [String c EmptyString]
           end
  end.

(** [s.split()]: the maximal runs of non-whitespace characters. *)
Fixpoint split_whitespace (s : string) : list string :=
  match s with
  | EmptyString => []
  | String c r =>
      if isspace c then split_whitespace r
      else match r with
           | EmptyString => [String c EmptyString]
           | String c' _ =>
               if isspace c' then String c EmptyString :: split_whitespace r
               else match split_whitespace r with
                    | w :: ws => String c w :: ws
                    | [] => [String c EmptyString]
                    end
           end
  end.

(** [sorted] on strings: ascending in the code-point order of [str]. *)
Fixpoint insert_sorted (x : string) (l : list string) : list string :=
  match l with
  | [] => [x]
  | y :: r => if String.leb x y then x :: l else y :: insert_sorted x r
  end.

Fixpoint sorted (l : list string) : list string :=
  match l with
  | [] => []
  | x :: r => insert_sorted x (sorted r)
  end.

(** [a <= b] on strings. *)
Definition str_le (a b : string) : Prop := String.leb a b = true.

Definition str_in (x : string) (l : list string) : bool :=
  existsb (String.eqb x) l.

(* ------------------------------------------------------------------ *)
(** ** spotipie/utils.py *)

Definition RESOURCE_TYPES : list string :=
  ["track"; "album"; "artist"; "playlist"; "user"].

(** [owner_id] is [None] or a string; [if owner_id:] is false for both
    [None] and the empty string. *)
Definition opt_truthy (o : option string) : bool :=
  match o with
  | Some s => negb (String.eqb s EmptyString)
  | None => false
  end.

Definition format_uri (obj_type obj_id : string) (owner_id : option string)
  : string :=
  match owner_id with
  | Some o =>
      if opt_truthy owner_id
      then "spotify:user:" ++ o ++ ":" ++ obj_type ++ ":" ++ obj_id
      else "spotify:" ++ obj_type ++ ":" ++ obj_id
  | None => "spotify:" ++ obj_type ++ ":" ++ obj_id
  end.

Definition normalize_scope (scope : PyVal) : Result (list string) :=
  if negb (truthy scope) then Ok []
  else match scope with
       | PStr s => Ok (sorted (split_whitespace s))
       | PList l | PTuple l => Ok (sorted l)
       | _ => Raise TypeError
       end.

(** The tokens [from_uri] hands to [_from_tokens]: the pieces of the
    URI without a leading ["spotify"]. *)
Definition uri_tokens (u : string) : list string :=
  match split ":" u with
  | t0 :: rest => if String.eqb t0 "spotify" then rest else t0 :: rest
  | [] => []
  end.

Definition OPEN_SPOTIFY_URL : string := "https://open.spotify.com".

(** ['/'.join([...])] is [String.concat "/"]. *)
Definition format_url (obj_type obj_id : string) (owner_id : option string)
  : string :=
  match owner_id with
  | Some o =>
      if opt_truthy owner_id
      then String.concat "/" [OPEN_SPOTIFY_URL; "user"; o; obj_type; obj_id]
      else String.concat "/" [OPEN_SPOTIFY_URL; obj_type; obj_id]
  | None => String.concat "/" [OPEN_SPOTIFY_URL; obj_type; obj_id]
  end.

Module ResourceInfo.

Record t : Type := make { type : string; id : string; owner_id : option string }.

(** [__attrs_post_init__]: the validation run at the end of [__init__]. *)
Definition __attrs_post_init__ (self : t) : Result t :=
  if negb (str_in (type self) RESOURCE_TYPES) then Raise ValueError
  else if negb (isalnum (id self)) then Raise ValueError
  else if opt_truthy (owner_id self) then
    if negb (String.eqb (type self) "playlist") then Raise ValueError
    else match owner_id self with
         | Some o => if negb (isalnum o) then Raise ValueError else Ok self
         | None => Ok self
         end
  else Ok self.

(** [ResourceInfo(type, id, owner_id=None)]. *)
Definition init (type id : string) (owner_id : option string) : Result t :=
  __attrs_post_init__ (make type id owner_id).

Definition _from_tokens (tokens : list string) (uri_or_url : string)
  : Result t :=
  match tokens with
  | [obj_type; obj_id] => init obj_type obj_id None
  | [user; owner; playlist; obj_id] =>
      if negb (String.eqb user "user") then Raise ValueError
      else init playlist obj_id (Some owner)
  | _ => Raise ValueError
  end.

Definition from_uri (uri : string) : Result t :=
  let tokens := split ":" uri in
  let tokens :=
    match tokens with
    | t0 :: rest => if String.eqb t0 "spotify" then rest else tokens
    | [] => tokens
    end in
  _from_tokens tokens uri.

Definition uri (self : t) : string :=
  format_uri (type self) (id self) (owner_id self).

(** The [__eq__] written in the class body ("Note: owner_id is not
    used"). *)
Definition __eq__ (self other : t) : bool :=
  String.eqb (type other) (type self) && String.eqb (id other) (id self).

Definition opt_eqb (a b : option string) : bool :=
  match a, b with
  | Some x, Some y => String.eqb x y
  | None, None => true
  | _, _ => false
  end.

(** The class is decorated with [@attrs(frozen=True)] and [eq] is left
    at its default, so the decorator writes its own [__eq__] into the
    class: the comparison of the tuples of all attributes. *)
Definition attrs_eq (self other : t) : bool :=
  String.eqb (type self) (type other) && String.eqb (id self) (id other)
  && opt_eqb (owner_id self) (owner_id other).

(** [a == b] on two instances: the [__eq__] the class holds once the
    decorator has run. *)
Definition eq (a b : t) : bool := attrs_eq a b.

(** [url.split('/')[3:]] drops the scheme, the empty token between the
    two slashes and the host. *)
Definition from_url (url : string) : Result t :=
  if negb (String.prefix OPEN_SPOTIFY_URL url) then Raise ValueError
  else _from_tokens (skipn 3 (split "/" url)) url.

Definition parse (uri_or_url : string) : Result t :=
  if String.prefix "https" uri_or_url then from_url uri_or_url
  else from_uri uri_or_url.

Definition url (self : t) : string :=
  format_url (type self) (id self) (owner_id self).

(** A resource as the constructor accepts it, with an owner that is
    absent or not empty. *)
Definition well_formed (self : t) : bool :=
  str_in (type self) RESOURCE_TYPES && isalnum (id self)
  && match owner_id self with
     | Some o => String.eqb (type self) "playlist" && isalnum o
     | None => true
     end.

End ResourceInfo.

(* ------------------------------------------------------------------ *)
(** ** Dictionaries

    A [dict] with string keys, in insertion order (the order Python
    iterates it in). *)

Definition dict : Type := list (string * PyVal).

Definition keys (d : dict) : list string := map fst d.

Fixpoint dict_get (k : string) (d : dict) : option PyVal :=
  match d with
  | [] => None
  | (k', v) :: r => if String.eqb k k' then Some v else dict_get k r
  end.

(** [k in d]. *)
Definition dict_has (k : string) (d : dict) : bool :=
  match dict_get k d with Some _ => true | None => false end.

(** [del d[k]]. *)
Definition dict_del (k : string) (d : dict) : dict :=
  filter (fun kv => negb (String.eqb k (fst kv))) d.

(** [d[k] = v]: overwrite in place, or append. *)
Fixpoint dict_set (k : string) (v : PyVal) (d : dict) : dict :=
  match d with
  | [] => [(k, v)]
  | (k', v') :: r =>
      if String.eqb k k' then (k, v) :: r else (k', v') :: dict_set k v r
  end.

Definition get_default (k : string) (dflt : PyVal) (d : dict) : PyVal :=
  match dict_get k d with Some v => v | None => dflt end.

(* ------------------------------------------------------------------ *)
(** ** spotipie/auth/_token.py *)

Module OAuth2Token.

(** The attributes in declaration order.  [scope] holds the tuple that
    the [normalize_scope] converter returns. *)
Record t : Type := make {
  access_token : PyVal;
  expires_in : PyVal;
  scope : list string;
  state : PyVal;
  token_type : PyVal;
  expires_at : PyVal;
  refresh_token : PyVal
}.

(** Parameter names of the generated [__init__], after [self]. *)
Definition init_params : list string :=
  ["access_token"; "expires_in"; "scope"; "state"; "token_type";
   "expires_at"; "refresh_token"].

(** [__attrs_post_init__] at clock reading [now]:
    [time.time() + self.expires_in - 2] when [expires_at] is [None].
    The sum is a float addition, for which an [int] operand is
    converted; the float [2.0] is then subtracted from the rounded
    sum. *)
Definition __attrs_post_init__ (now : float) (self : t) : Result t :=
  match expires_at self with
  | PNone =>
      match py_num (expires_in self) with
      | Some e =>
          (x <- as_float e ;;
           Ok (make (access_token self) (expires_in self) (scope self)
                 (state self) (token_type self)
                 (PFloat (float_sub (float_add now x) (float_of_Z 2)))
                 (refresh_token self)))%res
      | None => Raise TypeError
      end
  | _ => Ok self
  end.

(** [OAuth2Token] called with keyword arguments at clock reading [now]: bind the keyword
    arguments, apply the converter of [scope], run the post-init hook. *)
Definition init (now : float) (kwargs : dict) : Result t :=
  if negb (forallb (fun k => str_in k init_params) (keys kwargs))
  then Raise TypeError
  else
    match dict_get "access_token" kwargs, dict_get "expires_in" kwargs,
          dict_get "scope" kwargs with
    | Some a, Some e, Some sc =>
        (sc' <- normalize_scope sc ;;
         __attrs_post_init__ now
           (make a e sc'
              (get_default "state" PNone kwargs)
              (get_default "token_type" (PStr "Bearer") kwargs)
              (get_default "expires_at" PNone kwargs)
              (get_default "refresh_token" PNone kwargs)))%res
    | _, _, _ => Raise TypeError
    end.

(** [for key, value in data]: iterating a dict yields its keys, and each
    key is unpacked into exactly two characters. *)
Definition unpack2 (k : string) : Result (string * string) :=
  match k with
  | String a (String b EmptyString) =>
      Ok (String a EmptyString, String b EmptyString)
  | _ => Raise ValueError
  end.

(** [inspect.signature(OAuth2Token.__init__).parameters.keys()]. *)
Definition valid_keys : list string := "self" :: init_params.

(** [{key: value for key, value in data if key in valid_keys}]. *)
Fixpoint comprehension (ks : list string) (acc : dict) : Result dict :=
  match ks with
  | [] => Ok acc
  | k :: r =>
      (kv <- unpack2 k ;;
       comprehension r
         (if str_in (fst kv) valid_keys
          then dict_set (fst kv) (PStr (snd kv)) acc else acc))%res
  end.

Definition from_dict (now : float) (data : dict) (ignore_unknown_keys : bool)
  : Result t :=
  (data' <- (if ignore_unknown_keys then comprehension (keys data) []
             else Ok data) ;;
   init now data')%res.

(** What [attr.asdict] does to one attribute value: a tuple becomes a
    list ([retain_collection_types] is left at [False]). *)
Definition asdict_value (v : PyVal) : PyVal :=
  match v with
  | PTuple l => PList l
  | _ => v
  end.

Definition to_dict (self : t) : dict :=
  [("access_token", asdict_value (access_token self));
   ("expires_in", asdict_value (expires_in self));
   ("scope", PList (scope self));
   ("state", asdict_value (state self));
   ("token_type", asdict_value (token_type self));
   ("expires_at", asdict_value (expires_at self));
   ("refresh_token", asdict_value (refresh_token self))].

(** [is_expired(margin)] at clock reading [now]:
    [time.time() >= (self.expires_at - margin)]. *)
Definition is_expired (now : float) (self : t) (margin : PyVal) : Result bool :=
  match py_num (expires_at self), py_num margin with
  | Some ea, Some m => (d <- py_sub ea m ;; Ok (float_ge_num now d))%res
  | _, _ => Raise TypeError
  end.

Definition default_margin : PyVal := PInt 2.

(** The annotated types of the attributes: [access_token: str],
    [expires_in: int], [state: Optional[str]], [token_type: str],
    [expires_at: Optional[float]], [refresh_token: Optional[str]]. *)
Definition is_str (v : PyVal) : bool :=
  match v with PStr _ => true | _ => false end.

Definition is_int (v : PyVal) : bool :=
  match v with PInt _ => true | _ => false end.

Definition is_optional_str (v : PyVal) : bool :=
  match v with PNone | PStr _ => true | _ => false end.

Definition is_optional_float (v : PyVal) : bool :=
  match v with PNone | PFloat _ => true | _ => false end.

Definition has_declared_types (self : t) : bool :=
  is_str (access_token self) && is_int (expires_in self)
  && is_optional_str (state self) && is_str (token_type self)
  && is_optional_float (expires_at self)
  && is_optional_str (refresh_token self).

End OAuth2Token.

(* ------------------------------------------------------------------ *)
(** ** spotipie/auth/events.py and spotipie/auth/sessions.py *)

Module Sessions.

Inductive Flow : Type :=
| CLIENT_CREDENTIALS
| IMPLICIT_GRANT
| AUTHORIZATION_CODE.

(** The two events.  The [session] attribute of an event is the session
    object itself: a listener receives the session's store as its state. *)
Inductive SessionEvent : Type :=
| TokenExpiredEvent (expired_token : OAuth2Token.t) (withhold_token : bool)
| TokenUpdatedEvent (old_token new_token : option OAuth2Token.t).

(** [TokenType = Union[Dict, OAuth2Token]], and anything else. *)
Inductive TokenType : Type :=
| Dict (d : dict)
| Token (t : OAuth2Token.t)
| Other (v : PyVal).

(** How [OAuth2Session.fetch_token] is called by the three callers (the
    [timeout] argument, handed through unchanged, is left out). *)
Inductive FetchArgs : Type :=
| WithSecret (client_secret : PyVal)
| WithResponse (authorization_response : string) (client_secret : PyVal)
| WithCode (code state : string) (client_secret : PyVal).

(** Everything outside the repository that the sessions call: the
    wrapped [requests_oauthlib.OAuth2Session] (attributes [scope],
    [token], [auto_refresh_url]; methods [fetch_token], [refresh_token],
    [token_from_fragment], [request]), [urlparse(url).query] and
    [parse_qsl] of [urllib.parse], and the system clock.  [W] is the
    state of that outside world.  The setter of the [token] attribute
    runs library code on the map it is given and may raise (it reads
    [expires_in] as a number, for one). *)
Class External (W Request Response : Type) : Type := {
  time_time : W -> float;
  session_scope : W -> PyVal;
  session_set_token : dict -> W -> Result unit * W;
  session_set_auto_refresh_url : option string -> W -> W;
  session_fetch_token : FetchArgs -> W -> Result dict * W;
  session_refresh_token : W -> Result dict * W;
  session_token_from_fragment : string -> W -> Result dict * W;
  session_request : Request -> bool -> W -> Result Response * W;
  urlparse_query : string -> string;
  parse_qsl : string -> list (string * string)
}.

Section WithTransport.

Variables W Request Response : Type.
Context {X : External W Request Response}.

(** The attributes of a session object. *)
Record Store : Type := mkStore {
  _token : option OAuth2Token.t;
  _client_secret : PyVal;
  _auto_refresh : bool;
  world : W
}.

Definition with_token (t : option OAuth2Token.t) (s : Store) : Store :=
  mkStore t (_client_secret s) (_auto_refresh s) (world s).

Definition with_auto_refresh (b : bool) (s : Store) : Store :=
  mkStore (_token s) (_client_secret s) b (world s).

Definition with_world (w : W) (s : Store) : Store :=
  mkStore (_token s) (_client_secret s) (_auto_refresh s) w.

(** A listener is any callable on the event; it may change the session
    and the world, and it may raise.  The registry itself is fixed while
    a method runs. *)
Definition Callback : Type := SessionEvent -> Store -> Result unit * Store.

Record Listeners : Type := mkListeners {
  token_updated : list Callback;
  token_expired : list Callback
}.

(** [self._listeners[event.name]]. *)
Definition listeners_for (L : Listeners) (e : SessionEvent) : list Callback :=
  match e with
  | TokenExpiredEvent _ _ => token_expired L
  | TokenUpdatedEvent _ _ => token_updated L
  end.

(** The steps of a method that the properties speak about, in the order
    they happen.  [Installed] marks an assignment to [self._token];
    [Outbound] marks the call of [self._session.request] and records the
    session's token at that moment. *)
Inductive Action : Type :=
| Notified (e : SessionEvent)
| Installed (t : OAuth2Token.t)
| RefreshToken
| Exchange (args : FetchArgs)
| Renew
| FromFragment (url : string)
| Outbound (req : Request) (withhold_token : bool)
    (current : option OAuth2Token.t).

(** A method: it reads and writes the store, may raise (the store keeps
    the writes made so far), and leaves a trace of its steps. *)
Definition M (A : Type) : Type := Store -> Result A * Store * list Action.

Definition ret {A : Type} (a : A) : M A := fun s => (Ok a, s, []).

Definition bind {A B : Type} (m : M A) (f : A -> M B) : M B :=
  fun s =>
    match m s with
    | (Ok a, s1, t1) =>
        match f a s1 with
        | (r, s2, t2) => (r, s2, (t1 ++ t2)%list)
        end
    | (Raise e, s1, t1) => (Raise e, s1, t1)
    end.

Definition raise {A : Type} (e : exn) : M A := fun s => (Raise e, s, []).

Definition emit (a : Action) : M unit := fun s => (Ok tt, s, [a]).

Definition gets {A : Type} (f : Store -> A) : M A := fun s => (Ok (f s), s, []).

Definition modify (f : Store -> Store) : M unit := fun s => (Ok tt, f s, []).

Definition lift_result {A : Type} (r : Result A) : M A := fun s => (r, s, []).

Definition call_world {A : Type} (op : W -> Result A * W) : M A :=
  fun s => match op (world s) with (r, w) => (r, with_world w s, []) end.

Definition call_listener (cb : Callback) (e : SessionEvent) : M unit :=
  fun s => match cb e s with (r, s') => (r, s', []) end.

Declare Scope sess_scope.
Delimit Scope sess_scope with sess.
Notation "x <- m ;; k" := (bind m (fun x => k))
  (at level 61, m at next level, right associativity) : sess_scope.
Notation "m ;;; k" := (bind m (fun _ => k))
  (at level 61, right associativity) : sess_scope.
Local Open Scope sess_scope.

(** *** BaseOAuth2Session *)

Fixpoint run_listeners (cbs : list Callback) (e : SessionEvent) : M unit :=
  match cbs with
  | [] => ret tt
  | cb :: r => call_listener cb e ;;; run_listeners r e
  end.

Definition _notify_listeners (L : Listeners) (e : SessionEvent) : M unit :=
  emit (Notified e) ;;; run_listeners (listeners_for L e) e.

(** The [token] property. *)
Definition token : M (option OAuth2Token.t) := gets _token.

(** The [scope] property. *)
Definition scope : M (list string) :=
  tok <- token ;;
  match tok with
  | Some t => ret (OAuth2Token.scope t)
  | None => w <- gets world ;; lift_result (normalize_scope (session_scope w))
  end.

(** [OAuth2Token] called with keyword arguments: the clock is read by
    the post-init hook. *)
Definition new_token (kwargs : dict) : M OAuth2Token.t :=
  w <- gets world ;; lift_result (OAuth2Token.init (time_time w) kwargs).

(** [self._token = t]. *)
Definition assign_token (t : OAuth2Token.t) : M unit :=
  modify (with_token (Some t)) ;;; emit (Installed t).

(** [self._session.token = d]: the setter of the wrapped session runs,
    and what it raises propagates. *)
Definition assign_session_token (d : dict) : M unit :=
  call_world (session_set_token d).

(** The [if isinstance(token, dict) ... elif ... else] block of
    [set_token]. *)
Definition store_token (tok : TokenType) : M unit :=
  match tok with
  | Dict d =>
      if negb (dict_has "scope" d) then
        assign_session_token d ;;;
        sc <- scope ;;
        t <- new_token (("scope", PTuple sc) :: d) ;;
        assign_token t
      else
        t <- new_token d ;;
        assign_token t ;;;
        assign_session_token (dict_del "scope" d)
  | Token t =>
      assign_token t ;;;
      assign_session_token (dict_del "scope" (OAuth2Token.to_dict t))
  | Other _ => raise TypeError
  end.

Definition set_token (L : Listeners) (tok : TokenType) : M unit :=
  old_token <- token ;;
  store_token tok ;;;
  new <- token ;;
  _notify_listeners L (TokenUpdatedEvent old_token new).

(** [self.token and self.token.is_expired()]. *)
Definition token_is_expired : M (option OAuth2Token.t) :=
  tok <- token ;;
  match tok with
  | None => ret None
  | Some t =>
      w <- gets world ;;
      b <- lift_result
             (OAuth2Token.is_expired (time_time w) t OAuth2Token.default_margin) ;;
      ret (if b then Some t else None)
  end.

(** [self._session.request(...)]. *)
Definition outbound (req : Request) (withhold_token : bool) : M Response :=
  cur <- token ;;
  emit (Outbound req withhold_token cur) ;;;
  call_world (session_request req withhold_token).

Definition BaseOAuth2Session_request (L : Listeners) (req : Request)
  (withhold_token : bool) : M Response :=
  expired <- token_is_expired ;;
  match expired with
  | Some t => _notify_listeners L (TokenExpiredEvent t withhold_token)
  | None => ret tt
  end ;;;
  outbound req withhold_token.

(** *** RefreshableOAuth2Session *)

Definition REFRESH_URL : string := "https://accounts.spotify.com/api/token".

Definition enable_auto_refresh : M unit :=
  modify (fun s =>
    with_world (session_set_auto_refresh_url (Some REFRESH_URL) (world s)) s) ;;;
  modify (with_auto_refresh true).

Definition disable_auto_refresh : M unit :=
  modify (fun s => with_world (session_set_auto_refresh_url None (world s)) s) ;;;
  modify (with_auto_refresh false).

Section Refreshable.

(** The abstract method [_refresh_token] of the subclass. *)
Variable _refresh_token : Listeners -> M TokenType.

Definition refresh_token (L : Listeners) : M unit :=
  emit RefreshToken ;;;
  tok <- _refresh_token L ;;
  set_token L tok.

Definition RefreshableOAuth2Session_request (L : Listeners) (req : Request)
  (withhold_token : bool) : M Response :=
  expired <- token_is_expired ;;
  match expired with
  | Some t =>
      _notify_listeners L (TokenExpiredEvent t withhold_token) ;;;
      auto <- gets _auto_refresh ;;
      if auto && negb withhold_token then refresh_token L else ret tt
  | None => ret tt
  end ;;;
  outbound req withhold_token.

End Refreshable.

(** [return self.token], handed on as a [TokenType]. *)
Definition as_token_type (o : option OAuth2Token.t) : TokenType :=
  match o with
  | Some t => Token t
  | None => Other PNone
  end.

(** *** ClientCredentialsSession *)

Definition ClientCredentialsSession_fetch_token (L : Listeners)
  : M (option OAuth2Token.t) :=
  secret <- gets _client_secret ;;
  emit (Exchange (WithSecret secret)) ;;;
  tok <- call_world (session_fetch_token (WithSecret secret)) ;;
  set_token L (Dict tok) ;;;
  token.

Definition ClientCredentialsSession__refresh_token (L : Listeners)
  : M TokenType :=
  t <- ClientCredentialsSession_fetch_token L ;; ret (as_token_type t).

(** *** AuthorizationCodeSession *)

(** [params['error']] on the list that [parse_qsl] returns: a list is
    not indexed by a string. *)
Definition list_getitem_str (params : list (string * string)) (key : string)
  : Result PyVal := Raise TypeError.

Definition pair_value (kv : string * string) : PyVal :=
  PTuple [fst kv; snd kv].

Definition AuthorizationCodeSession_fetch_token (L : Listeners)
  (callback_url : string) : M (option OAuth2Token.t) :=
  let params := parse_qsl (urlparse_query callback_url) in
  if py_in (PStr "error") (map pair_value params) then
    e <- lift_result (list_getitem_str params "error") ;;
    if py_eq e (PStr "access_denied") then raise AccessDenied
    else
      e' <- lift_result (list_getitem_str params "error") ;;
      raise (AuthorizationException e')
  else
    secret <- gets _client_secret ;;
    emit (Exchange (WithResponse callback_url secret)) ;;;
    tok <- call_world (session_fetch_token (WithResponse callback_url secret)) ;;
    set_token L (Dict tok) ;;;
    token.

Definition AuthorizationCodeSession_fetch_token_given_code (L : Listeners)
  (code state : string) : M (option OAuth2Token.t) :=
  secret <- gets _client_secret ;;
  emit (Exchange (WithCode code state secret)) ;;;
  tok <- call_world (session_fetch_token (WithCode code state secret)) ;;
  set_token L (Dict tok) ;;;
  token.

Definition AuthorizationCodeSession__refresh_token (L : Listeners)
  : M TokenType :=
  emit Renew ;;;
  d <- call_world session_refresh_token ;;
  ret (Dict d).

(** *** ImplicitGrantSession *)

Definition read_token_from_callback_url (L : Listeners) (callback_url : string)
  : M (option OAuth2Token.t) :=
  emit (FromFragment callback_url) ;;;
  tok <- call_world (session_token_from_fragment callback_url) ;;
  set_token L (Dict tok) ;;;
  token.

(** *** Method resolution by flow *)

(** [_refresh_token] of the two refreshable classes. *)
Definition _refresh_token_of (f : Flow) (L : Listeners) : M TokenType :=
  match f with
  | CLIENT_CREDENTIALS => ClientCredentialsSession__refresh_token L
  | AUTHORIZATION_CODE => AuthorizationCodeSession__refresh_token L
  | IMPLICIT_GRANT => raise (ExternalError "AttributeError")
  end.

(** [session.request(...)] for a session of the class with [FLOW = f]:
    [ImplicitGrantSession] inherits the method of the base class, the
    other two that of [RefreshableOAuth2Session]. *)
Definition request (f : Flow) (L : Listeners) (req : Request)
  (withhold_token : bool) : M Response :=
  match f with
  | IMPLICIT_GRANT => BaseOAuth2Session_request L req withhold_token
  | _ => RefreshableOAuth2Session_request (_refresh_token_of f) L req withhold_token
  end.

(** *** The listener registry *)

(** The class attribute [name] of an event. *)
Definition event_name (e : SessionEvent) : string :=
  match e with
  | TokenExpiredEvent _ _ => "token_expired"
  | TokenUpdatedEvent _ _ => "token_updated"
  end.

(** [self._listeners[event_name].append(listener)]: the registry is a
    dict with the two event names as its only keys, so any other name
    raises [KeyError]. *)
Definition add_listener (event_name : string) (listener : Callback)
  (L : Listeners) : Result Listeners :=
  if String.eqb event_name "token_updated"
  then Ok (mkListeners (token_updated L ++ [listener]) (token_expired L))
  else if String.eqb event_name "token_expired"
  then Ok (mkListeners (token_updated L) (token_expired L ++ [listener]))
  else Raise (ExternalError "KeyError").

(** *** Reading a trace *)

Definition is_expired_event (a : Action) : bool :=
  match a with Notified (TokenExpiredEvent _ _) => true | _ => false end.

Definition is_updated_event (a : Action) : bool :=
  match a with Notified (TokenUpdatedEvent _ _) => true | _ => false end.

Definition is_installed (a : Action) : bool :=
  match a with Installed _ => true | _ => false end.

Definition is_refresh (a : Action) : bool :=
  match a with RefreshToken => true | _ => false end.

Definition is_outbound (a : Action) : bool :=
  match a with Outbound _ _ _ => true | _ => false end.

(** Any step that obtains or installs a token. *)
Definition is_renewal (a : Action) : bool :=
  match a with
  | RefreshToken | Exchange _ | Renew | FromFragment _ | Installed _
  | Notified (TokenUpdatedEvent _ _) => true
  | _ => false
  end.

Definition count (p : Action -> bool) (tr : list Action) : nat :=
  length (filter p tr).

(** As many token-updated notifications as assignments to [self._token]. *)
Definition balanced (tr : list Action) : Prop :=
  count is_updated_event tr = count is_installed tr.

(** The outcome of a run in which every assignment of the token was
    followed by its notification: the trace of a run that returned is
    balanced; in the trace of a run that raised, at most the last
    assignment lacks its notification. *)
Definition notified_assignments {A : Type}
  (out : Result A * Store * list Action) : Prop :=
  match out with
  | (Ok _, _, tr) => balanced tr
  | (Raise _, _, tr) =>
      balanced tr \/ count is_installed tr = S (count is_updated_event tr)
  end.

(** A method every run of which notifies its assignments. *)
Definition Bal {A : Type} (m : M A) : Prop :=
  forall s, notified_assignments (m s).

(** *** Kinds of listeners *)

(** A listener that does not assign the session's token. *)
Definition keeps_token (cb : Callback) : Prop :=
  forall e s, _token (snd (cb e s)) = _token s.

(** A listener that returns normally and does not assign the session's
    token. *)
Definition quiet (cb : Callback) : Prop :=
  forall e s, fst (cb e s) = Ok tt /\ _token (snd (cb e s)) = _token s.

End WithTransport.

Arguments Notified {Request} e.
Arguments Installed {Request} t.
Arguments RefreshToken {Request}.
Arguments Exchange {Request} args.
Arguments Renew {Request}.
Arguments FromFragment {Request} url.
Arguments token {W Request} _.
Arguments ret {W Request A} a _.
Arguments raise {W Request A} e _.
Arguments gets {W Request A} f _.
Arguments modify {W Request} f _.
Arguments lift_result {W Request A} r _.
Arguments call_world {W Request A} op _.
Arguments call_listener {W Request} cb e _.
Arguments run_listeners {W Request} cbs e _.
Arguments _notify_listeners {W Request} L e _.
Arguments assign_token {W Request} t _.
Arguments balanced {Request} tr.
Arguments notified_assignments {W Request A} out.
Arguments Bal {W Request A} m.
Arguments is_expired_event {Request} a.
Arguments is_updated_event {Request} a.
Arguments is_installed {Request} a.
Arguments is_refresh {Request} a.
Arguments is_outbound {Request} a.
Arguments is_renewal {Request} a.
Arguments keeps_token {W} cb.
Arguments quiet {W} cb.
Arguments add_listener {W} event_name listener L.

(** *** A scripted outside world, for examples

    The clock is the whole state; the authorization server answers every
    exchange and every renewal with the same token map; every request is
    answered with status 200. *)

Definition example_token_map : dict :=
  [("access_token", PStr "BQDnew"); ("token_type", PStr "Bearer");
   ("expires_in", PInt 3600); ("scope", PList ["user-read-email"]);
   ("expires_at", PFloat (float_of_Z 8600))].

Definition example_query (url : string) : string :=
  match split "?" url with
  | _ :: q :: _ => q
  | _ => EmptyString
  end.

Definition example_pair (kv : string) : list (string * string) :=
  match split "=" kv with
  | [k; v] => if String.eqb v EmptyString then [] else [(k, v)]
  | _ => []
  end.

Definition example_parse_qsl (q : string) : list (string * string) :=
  flat_map example_pair (split "&" q).

#[global] Instance example_world : External float string nat := {
  time_time := fun w => w;
  session_scope := fun _ => PNone;
  session_set_token := fun _ w => (Ok tt, w);
  session_set_auto_refresh_url := fun _ w => w;
  session_fetch_token := fun _ w => (Ok example_token_map, w);
  session_refresh_token := fun w => (Ok example_token_map, w);
  session_token_from_fragment := fun _ w => (Ok example_token_map, w);
  session_request := fun _ _ w => (Ok 200%nat, w);
  urlparse_query := example_query;
  parse_qsl := example_parse_qsl
}.

(** A token that expired long before the clock reading 5000. *)
Definition example_old_token : OAuth2Token.t :=
  OAuth2Token.make (PStr "BQDold") (PInt 3600) ["user-read-email"] PNone
    (PStr "Bearer") (PFloat (float_of_Z 4598)) (PStr "AQCrefresh").

(** The token that [example_token_map] denotes. *)
Definition example_new_token : OAuth2Token.t :=
  OAuth2Token.make (PStr "BQDnew") (PInt 3600) ["user-read-email"] PNone
    (PStr "Bearer") (PFloat (float_of_Z 8600)) PNone.

(** A listener that records nothing and changes nothing. *)
Definition example_listener : Callback float :=
  fun _ s => (Ok tt, s).

(** A listener that always raises. *)
Definition example_failing_listener : Callback float :=
  fun _ s => (Raise ValueError, s).

Definition example_listeners : Listeners float :=
  mkListeners [example_listener] [example_listener].

(** A session holding the expired token at clock reading 5000, with
    auto-refresh enabled. *)
Definition example_session : Store float :=
  mkStore (Some example_old_token) (PStr "secret") true (float_of_Z 5000).

(** An outside world in which the authorization server cannot be
    reached: every exchange and every renewal raises. *)
Definition unreachable_world : External float string nat :=
  Build_External
    (fun w => w)
    (fun _ => PNone)
    (fun _ w => (Ok tt, w))
    (fun _ w => w)
    (fun _ w => (Raise (ExternalError "ConnectionError"), w))
    (fun w => (Raise (ExternalError "ConnectionError"), w))
    (fun _ w => (Raise (ExternalError "ConnectionError"), w))
    (fun _ _ w => (Ok 200%nat, w))
    example_query
    example_parse_qsl.

(** [int(v)] as the setter of the wrapped session applies it to
    [expires_in]: a string that is not a decimal number raises
    [ValueError]. *)
Definition is_digit (c : ascii) : bool :=
  let n := N_of_ascii c in ((48 <=? n) && (n <=? 57))%N.

Definition reads_as_int (v : PyVal) : Result unit :=
  match v with
  | PStr s =>
      match s with
      | EmptyString => Raise ValueError
      | _ => if all_chars is_digit s then Ok tt else Raise ValueError
      end
  | _ => Ok tt
  end.

(** An outside world like [example_world], but whose wrapped session
    validates the token map it is given: the setter raises when
    [expires_in] is present and does not read as a number. *)
Definition validating_world : External float string nat :=
  Build_External
    (fun w => w)
    (fun _ => PNone)
    (fun d w =>
       (match dict_get "expires_in" d with
        | Some v => reads_as_int v
        | None => Ok tt
        end, w))
    (fun _ w => w)
    (fun _ w => (Ok example_token_map, w))
    (fun w => (Ok example_token_map, w))
    (fun _ w => (Ok example_token_map, w))
    (fun _ _ w => (Ok 200%nat, w))
    example_query
    example_parse_qsl.

(** A token whose [expires_in] is not a number, with an explicit
    [expires_at] (so that the constructor accepts it). *)
Definition example_vague_token : OAuth2Token.t :=
  OAuth2Token.make (PStr "BQDnew") (PStr "soon") ["user-read-email"] PNone
    (PStr "Bearer") (PFloat (float_of_Z 8600)) PNone.

End Sessions.

(* ------------------------------------------------------------------ *)
(** ** spotipie/exceptions.py, [get_id] of spotipie/utils.py and
       [Spotify._ensure_scope] of spotipie/client.py *)

(** What a call of this layer raises: a Python exception of the kind
    above, or one of the two exceptions that carry data.  A [set] of
    strings held by an exception is written as its sorted list without
    duplicates. *)
Inductive Raised : Type :=
| Builtin (e : exn)
| ResourceTypeMismatch (expected_type actual_type : string)
| InsufficientScope (needed_scope current_scope missing_scope : list string).

Inductive Outcome (A : Type) : Type :=
| Returns (a : A)
| Raises (e : Raised).
Arguments Returns {A} a.
Arguments Raises {A} e.

Definition of_result {A : Type} (r : Result A) : Outcome A :=
  match r with
  | Ok a => Returns a
  | Raise e => Raises (Builtin e)
  end.

Definition get_id (identifier : string) (expected_type : option string)
  : Outcome string :=
  if isalnum identifier then Returns identifier
  else
    match ResourceInfo.parse identifier with
    | Raise e => Raises (Builtin e)
    | Ok resource =>
        match expected_type with
        | Some e =>
            if opt_truthy expected_type
               && negb (String.eqb (ResourceInfo.type resource) e)
            then
              if negb (str_in e RESOURCE_TYPES) then Raises (Builtin ValueError)
              else Raises (ResourceTypeMismatch e (ResourceInfo.type resource))
            else Returns (ResourceInfo.id resource)
        | None => Returns (ResourceInfo.id resource)
        end
    end.

(** [sorted(set(l))]. *)
Definition sorted_set (l : list string) : list string :=
  sorted (nodup string_dec l).

(** [InsufficientScope(needed_scope, current_scope)]: the constructor
    computes [missing_scope = list(sorted(set(needed) - set(current)))]. *)
Definition InsufficientScope_init (needed_scope current_scope : list string)
  : Raised :=
  InsufficientScope (sorted_set needed_scope) (sorted_set current_scope)
    (sorted_set (filter (fun x => negb (str_in x current_scope)) needed_scope)).

(** [s.endswith(c)] for a one-character suffix. *)
Fixpoint endswith_char (c : ascii) (s : string) : bool :=
  match s with
  | EmptyString => false
  | String a EmptyString => Ascii.eqb a c
  | String _ r => endswith_char c r
  end.

(** The completion of a scope that ends with ["-"], when [public] is
    given. *)
Definition complete_scope (public : option bool) (scope_string : string)
  : string :=
  match public with
  | None => scope_string
  | Some p =>
      if endswith_char "-" scope_string
      then scope_string ++ (if p then "public" else "private")
      else scope_string
  end.

(** [_ensure_scope(needed_scope, current_scope, public)];
    [session_scope] is the value of [self.session.scope], read only
    when [current_scope] is [None]. *)
Definition _ensure_scope (needed_scope : string)
  (current_scope : option (list string)) (public : option bool)
  (session_scope : list string) : Outcome unit :=
  let needed := map (complete_scope public) (split_whitespace needed_scope) in
  let current :=
    match current_scope with
    | Some c => c
    | None => session_scope
    end in
  if forallb (fun x => str_in x current) needed then Returns tt
  else Raises (InsufficientScope_init needed current).


(* ================================================================== *)
(** * Properties *)

(* ------------------------------------------------------------------ *)
(** ** Strings *)

Lemma split_without_sep (sep : ascii) (s : string) :
  all_chars (not_char sep) s = true -> split sep s = [s].
Proof.
  induction s as [| c r IH]; simpl; intro H.
  - reflexivity.
  - apply andb_prop in H. destruct H as [Hc Hr].
    unfold not_char in Hc. apply negb_true_iff in Hc. rewrite Hc.
    rewrite (IH Hr). reflexivity.
Qed.

Lemma split_nonempty (sep : ascii) (s : string) : split sep s <> [].
Proof.
  destruct s as [| c r]; simpl.
  - discriminate.
  - destruct (Ascii.eqb c sep); [discriminate |].
    destruct (split sep r); discriminate.
Qed.

Lemma split_app (sep : ascii) (a b : string) :
  all_chars (not_char sep) a = true ->
  split sep (a ++ String sep b) = a :: split sep b.
Proof.
  induction a as [| c r IH]; simpl; intro H.
  - rewrite Ascii.eqb_refl. reflexivity.
  - apply andb_prop in H. destruct H as [Hc Hr].
    unfold not_char in Hc. apply negb_true_iff in Hc. rewrite Hc.
    rewrite (IH Hr). reflexivity.
Qed.

Lemma isalnum_char_not_colon (c : ascii) :
  isalnum_char c = true -> not_char ":" c = true.
Proof.
  destruct c as [b0 b1 b2 b3 b4 b5 b6 b7].
  destruct b0, b1, b2, b3, b4, b5, b6, b7; vm_compute; congruence.
Qed.

Lemma all_chars_impl (p q : ascii -> bool) (s : string) :
  (forall c, p c = true -> q c = true) ->
  all_chars p s = true -> all_chars q s = true.
Proof.
  intro Hpq. induction s as [| c r IH]; simpl; intro H.
  - reflexivity.
  - apply andb_prop in H. destruct H as [Hc Hr].
    rewrite (Hpq c Hc), (IH Hr). reflexivity.
Qed.

Lemma isalnum_no_colon (s : string) :
  isalnum s = true -> all_chars (not_char ":") s = true.
Proof.
  destruct s as [| c r]; [discriminate |].
  unfold isalnum. apply all_chars_impl. exact isalnum_char_not_colon.
Qed.

Lemma isalnum_nonempty (s : string) :
  isalnum s = true -> String.eqb s EmptyString = false.
Proof. destruct s; [discriminate | reflexivity]. Qed.

Lemma split_isalnum (s : string) :
  isalnum s = true -> split ":" s = [s].
Proof. intro H. apply split_without_sep, isalnum_no_colon, H. Qed.

Lemma resource_type_cases (ty : string) :
  str_in ty RESOURCE_TYPES = true ->
  ty = "track" \/ ty = "album" \/ ty = "artist" \/ ty = "playlist" \/ ty = "user".
Proof.
  unfold str_in, RESOURCE_TYPES. simpl. intro H.
  repeat (apply orb_prop in H; destruct H as [H | H]);
    try (apply String.eqb_eq in H; auto 6).
  discriminate.
Qed.

Lemma resource_type_no_colon (ty : string) :
  str_in ty RESOURCE_TYPES = true -> all_chars (not_char ":") ty = true.
Proof.
  intro H.
  destruct (resource_type_cases ty H) as [E | [E | [E | [E | E]]]];
    subst; reflexivity.
Qed.

(* ------------------------------------------------------------------ *)
(** ** Resource identifiers *)

Lemma init_two_part (ty id : string) :
  str_in ty RESOURCE_TYPES = true -> isalnum id = true ->
  ResourceInfo.init ty id None = Ok (ResourceInfo.make ty id None).
Proof.
  intros Hty Hid. unfold ResourceInfo.init, ResourceInfo.__attrs_post_init__.
  cbn [ResourceInfo.type ResourceInfo.id ResourceInfo.owner_id].
  rewrite Hty, Hid. reflexivity.
Qed.

Lemma init_legacy_playlist (owner id : string) :
  isalnum owner = true -> isalnum id = true ->
  ResourceInfo.init "playlist" id (Some owner)
  = Ok (ResourceInfo.make "playlist" id (Some owner)).
Proof.
  intros Ho Hid. unfold ResourceInfo.init, ResourceInfo.__attrs_post_init__.
  cbn [ResourceInfo.type ResourceInfo.id ResourceInfo.owner_id].
  unfold opt_truthy. rewrite (isalnum_nonempty owner Ho), Hid, Ho.
  reflexivity.
Qed.

Lemma from_uri_two_part (ty id : string) :
  str_in ty RESOURCE_TYPES = true -> isalnum id = true ->
  ResourceInfo.from_uri ("spotify:" ++ ty ++ ":" ++ id)
  = Ok (ResourceInfo.make ty id None).
Proof.
  intros Hty Hid. unfold ResourceInfo.from_uri.
  change ("spotify:" ++ ty ++ ":" ++ id)
    with ("spotify" ++ String ":" (ty ++ String ":" id)).
  rewrite split_app by reflexivity.
  rewrite split_app by (apply resource_type_no_colon, Hty).
  rewrite (split_isalnum id Hid).
  simpl. apply init_two_part; assumption.
Qed.

Lemma from_uri_legacy_playlist (owner id : string) :
  isalnum owner = true -> isalnum id = true ->
  ResourceInfo.from_uri ("spotify:user:" ++ owner ++ ":playlist:" ++ id)
  = Ok (ResourceInfo.make "playlist" id (Some owner)).
Proof.
  intros Ho Hid. unfold ResourceInfo.from_uri.
  change ("spotify:user:" ++ owner ++ ":playlist:" ++ id)
    with ("spotify" ++ String ":" ("user" ++ String ":"
            (owner ++ String ":" ("playlist" ++ String ":" id)))).
  rewrite split_app by reflexivity.
  rewrite split_app by reflexivity.
  rewrite split_app by (apply isalnum_no_colon, Ho).
  rewrite split_app by reflexivity.
  rewrite (split_isalnum id Hid).
  simpl. apply init_legacy_playlist; assumption.
Qed.

(** C8. For every supported resource type and every alphanumeric id,
    [from_uri] accepts ["spotify:{type}:{id}"] and the [uri] property of
    the result is the original string; for every alphanumeric owner and
    id the same holds of the legacy four-part playlist URI
    ["spotify:user:{owner}:playlist:{id}"]. *)
Theorem uri_round_trip (ty id owner : string) :
  str_in ty RESOURCE_TYPES = true ->
  isalnum id = true ->
  isalnum owner = true ->
  (r <- ResourceInfo.from_uri ("spotify:" ++ ty ++ ":" ++ id) ;;
   Ok (ResourceInfo.uri r))%res
  = Ok ("spotify:" ++ ty ++ ":" ++ id)
  /\
  (r <- ResourceInfo.from_uri ("spotify:user:" ++ owner ++ ":playlist:" ++ id) ;;
   Ok (ResourceInfo.uri r))%res
  = Ok ("spotify:user:" ++ owner ++ ":playlist:" ++ id).
Proof.
  intros Hty Hid Ho. split.
  - rewrite (from_uri_two_part ty id Hty Hid). reflexivity.
  - rewrite (from_uri_legacy_playlist owner id Ho Hid). simpl.
    unfold ResourceInfo.uri, format_uri, opt_truthy. simpl.
    rewrite (isalnum_nonempty owner Ho). reflexivity.
Qed.

Lemma uri_round_trip_witness :
  (r <- ResourceInfo.from_uri ("spotify:" ++ "album" ++ ":" ++ "4Z8bvNgj0iTiBMmFakQMgN") ;;
   Ok (ResourceInfo.uri r))%res
  = Ok ("spotify:" ++ "album" ++ ":" ++ "4Z8bvNgj0iTiBMmFakQMgN")
  /\
  (r <- ResourceInfo.from_uri
          ("spotify:user:" ++ "sbobyx" ++ ":playlist:" ++ "4Z8bvNgj0iTiBMmFakQMgN") ;;
   Ok (ResourceInfo.uri r))%res
  = Ok ("spotify:user:" ++ "sbobyx" ++ ":playlist:" ++ "4Z8bvNgj0iTiBMmFakQMgN").
Proof.
  apply (uri_round_trip "album" "4Z8bvNgj0iTiBMmFakQMgN" "sbobyx"); reflexivity.
Defined.

(* ------------------------------------------------------------------ *)
(** ** Sorting and scope normalization *)

Lemma ascii_compare_refl (x : ascii) : Ascii.compare x x = Eq.
Proof. unfold Ascii.compare. apply N.compare_refl. Qed.

Lemma ascii_compare_lt_trans (x y z : ascii) :
  Ascii.compare x y = Lt -> Ascii.compare y z = Lt -> Ascii.compare x z = Lt.
Proof.
  unfold Ascii.compare. rewrite !N.compare_lt_iff. apply N.lt_trans.
Qed.

Lemma string_leb_trans (a b c : string) :
  String.leb a b = true -> String.leb b c = true -> String.leb a c = true.
Proof.
  unfold String.leb. revert b c.
  induction a as [| x a IH]; intros [| y b] [| z c]; simpl;
    try reflexivity; try discriminate.
  destruct (Ascii.compare x y) eqn:Exy; try discriminate;
    destruct (Ascii.compare y z) eqn:Eyz; try discriminate; intros Hab Hbc.
  - apply Ascii.compare_eq_iff in Exy, Eyz. subst.
    rewrite ascii_compare_refl. exact (IH _ _ Hab Hbc).
  - apply Ascii.compare_eq_iff in Exy. subst. rewrite Eyz. reflexivity.
  - apply Ascii.compare_eq_iff in Eyz. subst. rewrite Exy. reflexivity.
  - rewrite (ascii_compare_lt_trans _ _ _ Exy Eyz). reflexivity.
Qed.

Lemma insert_sorted_perm (x : string) (l : list string) :
  Permutation (x :: l) (insert_sorted x l).
Proof.
  induction l as [| y r IH]; simpl.
  - apply Permutation_refl.
  - destruct (String.leb x y).
    + apply Permutation_refl.
    + eapply perm_trans; [apply perm_swap |].
      apply perm_skip, IH.
Qed.

Lemma sorted_perm (l : list string) : Permutation l (sorted l).
Proof.
  induction l as [| x r IH]; simpl.
  - apply perm_nil.
  - eapply perm_trans; [apply perm_skip, IH | apply insert_sorted_perm].
Qed.

Lemma insert_sorted_strongly (x : string) (l : list string) :
  StronglySorted str_le l -> StronglySorted str_le (insert_sorted x l).
Proof.
  induction 1 as [| y r Hr IH Hy]; simpl.
  - constructor; constructor.
  - destruct (String.leb x y) eqn:E.
    + constructor.
      * constructor; assumption.
      * constructor; [exact E |].
        eapply Forall_impl; [| exact Hy].
        intros z Hz. exact (string_leb_trans _ _ _ E Hz).
    + constructor; [exact IH |].
      assert (Hyx : str_le y x).
      { destruct (String.leb_total x y) as [H | H]; [congruence | exact H]. }
      eapply Permutation_Forall; [apply insert_sorted_perm |].
      constructor; assumption.
Qed.

Lemma sorted_strongly (l : list string) : StronglySorted str_le (sorted l).
Proof.
  induction l as [| x r IH]; simpl.
  - constructor.
  - apply insert_sorted_strongly, IH.
Qed.

(** A strongly sorted list is determined by its elements. *)
Lemma strongly_sorted_unique (l1 l2 : list string) :
  StronglySorted str_le l1 -> StronglySorted str_le l2 ->
  Permutation l1 l2 -> l1 = l2.
Proof.
  intro H1. revert l2.
  induction H1 as [| x r1 Hr1 IH Hx]; intros l2 H2 HP.
  - apply Permutation_nil in HP. subst. reflexivity.
  - destruct H2 as [| y r2 Hr2 Hy].
    + apply Permutation_sym, Permutation_nil in HP. discriminate.
    + assert (Hxy : x = y).
      { assert (Hin1 : In x (y :: r2))
          by (eapply Permutation_in; [exact HP | left; reflexivity]).
        assert (Hin2 : In y (x :: r1))
          by (eapply Permutation_in; [apply Permutation_sym, HP | left; reflexivity]).
        destruct Hin1 as [E | Hin1]; [congruence |].
        destruct Hin2 as [E | Hin2]; [congruence |].
        rewrite Forall_forall in Hx, Hy.
        apply String.leb_antisym; [apply Hx, Hin2 | apply Hy, Hin1]. }
      subst y. f_equal. apply IH; [exact Hr2 |].
      eapply Permutation_cons_inv, HP.
Qed.

Lemma sorted_of_permutation (l l' : list string) :
  Permutation l l' -> sorted l = sorted l'.
Proof.
  intro HP. apply strongly_sorted_unique; try apply sorted_strongly.
  eapply perm_trans; [apply Permutation_sym, sorted_perm |].
  eapply perm_trans; [exact HP | apply sorted_perm].
Qed.

Lemma sorted_idempotent (l : list string) : sorted (sorted l) = sorted l.
Proof. apply sorted_of_permutation, Permutation_sym, sorted_perm. Qed.

Lemma normalize_scope_tuple (l : list string) :
  normalize_scope (PTuple l) = Ok (sorted l).
Proof. destruct l; reflexivity. Qed.

Lemma normalize_scope_list (l : list string) :
  normalize_scope (PList l) = Ok (sorted l).
Proof. destruct l; reflexivity. Qed.

Lemma normalize_scope_sorted (v : PyVal) (t : list string) :
  normalize_scope v = Ok t -> sorted t = t.
Proof.
  unfold normalize_scope. destruct (negb (truthy v)).
  - intro H. inversion H. reflexivity.
  - destruct v; try discriminate; intro H; inversion H; apply sorted_idempotent.
Qed.

(** C9. Scope normalization is order-independent and idempotent: the
    strings ["b a"] and ["a b"] and the list [["a"; "b"]] all normalize to
    the tuple [("a", "b")]; two lists with the same elements in any order,
    and two strings whose words are the same in any order, normalize to
    the same tuple; and normalizing a normalized scope returns it
    unchanged. *)
Theorem normalize_scope_canonical (v : PyVal) (t l l' : list string)
  (s s' : string) :
  normalize_scope v = Ok t ->
  Permutation l l' ->
  Permutation (split_whitespace s) (split_whitespace s') ->
  normalize_scope (PStr "b a") = Ok ["a"; "b"]
  /\ normalize_scope (PStr "a b") = Ok ["a"; "b"]
  /\ normalize_scope (PList ["a"; "b"]) = Ok ["a"; "b"]
  /\ normalize_scope (PList l) = normalize_scope (PList l')
  /\ normalize_scope (PStr s) = normalize_scope (PStr s')
  /\ normalize_scope (PTuple t) = Ok t.
Proof.
  intros Hv Hl Hs. repeat split; try reflexivity.
  - rewrite !normalize_scope_list. f_equal. apply sorted_of_permutation, Hl.
  - assert (E : forall x, normalize_scope (PStr x) = Ok (sorted (split_whitespace x))).
    { intros [| c r]; reflexivity. }
    rewrite !E. f_equal. apply sorted_of_permutation, Hs.
  - rewrite normalize_scope_tuple. f_equal. eapply normalize_scope_sorted, Hv.
Qed.

Lemma normalize_scope_canonical_witness :
  normalize_scope (PStr "b a") = Ok ["a"; "b"]
  /\ normalize_scope (PStr "a b") = Ok ["a"; "b"]
  /\ normalize_scope (PList ["a"; "b"]) = Ok ["a"; "b"]
  /\ normalize_scope (PList ["user-read-email"; "playlist-read-private"])
     = normalize_scope (PList ["playlist-read-private"; "user-read-email"])
  /\ normalize_scope (PStr "user-read-email  playlist-read-private")
     = normalize_scope (PStr " playlist-read-private user-read-email")
  /\ normalize_scope (PTuple ["playlist-read-private"; "user-read-email"])
     = Ok ["playlist-read-private"; "user-read-email"].
Proof.
  apply (normalize_scope_canonical
           (PStr "user-read-email playlist-read-private")
           (t := ["playlist-read-private"; "user-read-email"])).
  - reflexivity.
  - apply perm_swap.
  - apply perm_swap.
Defined.

(** C10. The [__eq__] written in the class body compares [type] and [id]
    only, but [==] on two instances runs the comparison the [attrs]
    decorator installs, which also compares [owner_id]: the playlist
    parsed from the legacy four-part URI is not equal to the same
    playlist parsed from the two-part URI. *)
Theorem legacy_playlist_not_equal :
  exists a b,
    ResourceInfo.from_uri "spotify:user:spotify:playlist:4Z8bvNgj0iTiBMmFakQMgN" = Ok a
    /\ ResourceInfo.from_uri "spotify:playlist:4Z8bvNgj0iTiBMmFakQMgN" = Ok b
    /\ ResourceInfo.type a = ResourceInfo.type b
    /\ ResourceInfo.id a = ResourceInfo.id b
    /\ ResourceInfo.__eq__ a b = true
    /\ ResourceInfo.eq a b = false.
Proof.
  eexists. eexists.
  split; [reflexivity |]. split; [reflexivity |].
  repeat split.
Qed.

(* ------------------------------------------------------------------ *)
(** ** Tokens *)

Lemma init_inv (now : float) (kwargs : dict) (t : OAuth2Token.t) :
  OAuth2Token.init now kwargs = Ok t ->
  exists a e sc sc',
    dict_get "access_token" kwargs = Some a
    /\ dict_get "expires_in" kwargs = Some e
    /\ dict_get "scope" kwargs = Some sc
    /\ normalize_scope sc = Ok sc'
    /\ OAuth2Token.__attrs_post_init__ now
         (OAuth2Token.make a e sc'
            (get_default "state" PNone kwargs)
            (get_default "token_type" (PStr "Bearer") kwargs)
            (get_default "expires_at" PNone kwargs)
            (get_default "refresh_token" PNone kwargs)) = Ok t.
Proof.
  unfold OAuth2Token.init.
  destruct (negb (forallb _ (keys kwargs))); [discriminate |].
  destruct (dict_get "access_token" kwargs) as [a |]; [| discriminate].
  destruct (dict_get "expires_in" kwargs) as [e |]; [| discriminate].
  destruct (dict_get "scope" kwargs) as [sc |]; [| discriminate].
  destruct (normalize_scope sc) as [sc' |] eqn:Hsc; [| discriminate].
  simpl. intro H. exists a, e, sc, sc'. repeat split; assumption.
Qed.

Lemma init_expires_at_set (now : float) (kwargs : dict) (t : OAuth2Token.t) :
  OAuth2Token.init now kwargs = Ok t -> OAuth2Token.expires_at t <> PNone.
Proof.
  intro H. apply init_inv in H.
  destruct H as (a & e & sc & sc' & _ & _ & _ & _ & H).
  unfold OAuth2Token.__attrs_post_init__ in H.
  cbn [OAuth2Token.expires_at OAuth2Token.expires_in] in H.
  destruct (get_default "expires_at" PNone kwargs) eqn:E;
    try (inversion H; subst; cbn; discriminate).
  destruct (py_num e) as [x |]; [| discriminate].
  destruct (as_float x); inversion H. cbn. discriminate.
Qed.

Lemma init_scope_sorted (now : float) (kwargs : dict) (t : OAuth2Token.t) :
  OAuth2Token.init now kwargs = Ok t ->
  sorted (OAuth2Token.scope t) = OAuth2Token.scope t.
Proof.
  intro H. apply init_inv in H.
  destruct H as (a & e & sc & sc' & _ & _ & _ & Hsc & H).
  apply normalize_scope_sorted in Hsc.
  unfold OAuth2Token.__attrs_post_init__ in H.
  cbn [OAuth2Token.expires_at OAuth2Token.expires_in OAuth2Token.scope] in H.
  destruct (get_default "expires_at" PNone kwargs);
    try (inversion H; subst; exact Hsc).
  destruct (py_num e) as [x |]; [| discriminate].
  destruct (as_float x); inversion H. exact Hsc.
Qed.







Lemma one_char_not_valid_key (a : ascii) :
  str_in (String a EmptyString) OAuth2Token.valid_keys = false.
Proof.
  unfold str_in, OAuth2Token.valid_keys, OAuth2Token.init_params.
  cbn [existsb String.eqb].
  repeat match goal with
         | |- context [if ?b then false else false] => destruct b
         end; reflexivity.
Qed.

Lemma comprehension_result (ks : list string) (acc : dict) :
  OAuth2Token.comprehension ks acc = Ok acc
  \/ OAuth2Token.comprehension ks acc = Raise ValueError.
Proof.
  revert acc. induction ks as [| k r IH]; intro acc;
    cbn [OAuth2Token.comprehension].
  - left. reflexivity.
  - destruct k as [| a [| b [| c k']]];
      cbn [OAuth2Token.unpack2 rbind fst snd]; auto.
    rewrite one_char_not_valid_key. apply IH.
Qed.

Lemma comprehension_long_key (ks : list string) (acc : dict) :
  In "access_token" ks -> OAuth2Token.comprehension ks acc = Raise ValueError.
Proof.
  revert acc. induction ks as [| k r IH]; intros acc Hin;
    cbn [OAuth2Token.comprehension].
  - destruct Hin.
  - destruct Hin as [E | Hin].
    + subst k. reflexivity.
    + destruct k as [| a [| b [| c k']]];
        cbn [OAuth2Token.unpack2 rbind fst snd]; auto.
Qed.

(** With [ignore_unknown_keys=True], [from_dict] never returns a token:
    the comprehension iterates the keys of the map, not its items. *)
Lemma from_dict_ignoring_never_succeeds (now : float) (data : dict)
  (t : OAuth2Token.t) :
  OAuth2Token.from_dict now data true <> Ok t.
Proof.
  unfold OAuth2Token.from_dict.
  destruct (comprehension_result (keys data) []) as [E | E]; rewrite E; simpl.
  - discriminate.
  - discriminate.
Qed.

Lemma from_dict_ignoring_raises (now : float) (data : dict) :
  In "access_token" (keys data) ->
  OAuth2Token.from_dict now data true = Raise ValueError.
Proof.
  intro H. unfold OAuth2Token.from_dict.
  rewrite (comprehension_long_key _ [] H). reflexivity.
Qed.

(** C6. On a map made of valid token fields and one unknown field,
    [from_dict] with [ignore_unknown_keys=True] raises [ValueError]
    (the first key cannot be unpacked into a pair), although the valid
    fields alone construct a token. *)
Theorem from_dict_ignore_unknown_keys_raises :
  OAuth2Token.from_dict (float_of_Z 1000)
    [("access_token", PStr "BQDx"); ("expires_in", PInt 3600);
     ("scope", PStr "user-read-email"); ("country", PStr "IT")] true
  = Raise ValueError
  /\ exists t,
       OAuth2Token.from_dict (float_of_Z 1000)
         [("access_token", PStr "BQDx"); ("expires_in", PInt 3600);
          ("scope", PStr "user-read-email")] false
       = Ok t.
Proof.
  split.
  - reflexivity.
  - eexists. reflexivity.
Qed.

Lemma declared_types_asdict (t : OAuth2Token.t) :
  OAuth2Token.has_declared_types t = true ->
  OAuth2Token.asdict_value (OAuth2Token.access_token t) = OAuth2Token.access_token t
  /\ OAuth2Token.asdict_value (OAuth2Token.expires_in t) = OAuth2Token.expires_in t
  /\ OAuth2Token.asdict_value (OAuth2Token.state t) = OAuth2Token.state t
  /\ OAuth2Token.asdict_value (OAuth2Token.token_type t) = OAuth2Token.token_type t
  /\ OAuth2Token.asdict_value (OAuth2Token.expires_at t) = OAuth2Token.expires_at t
  /\ OAuth2Token.asdict_value (OAuth2Token.refresh_token t) = OAuth2Token.refresh_token t.
Proof.
  unfold OAuth2Token.has_declared_types. intro H.
  repeat (apply andb_prop in H; destruct H as [H ?]).
  destruct t as [a e sc st ty ea rt]; cbn in *.
  destruct a, e, st, ty, ea, rt; try discriminate; repeat split.
Qed.

Lemma init_of_to_dict (now : float) (t : OAuth2Token.t) :
  OAuth2Token.has_declared_types t = true ->
  sorted (OAuth2Token.scope t) = OAuth2Token.scope t ->
  OAuth2Token.expires_at t <> PNone ->
  OAuth2Token.init now (OAuth2Token.to_dict t) = Ok t.
Proof.
  intros Hty Hsc Hea.
  destruct (declared_types_asdict t Hty) as (Ea & Ee & Est & Ett & Eea & Ert).
  unfold OAuth2Token.init, OAuth2Token.to_dict.
  rewrite Ea, Ee, Est, Ett, Eea, Ert.
  cbn [keys map fst forallb str_in OAuth2Token.init_params existsb
       String.eqb Ascii.eqb Bool.eqb andb orb negb dict_get get_default].
  rewrite normalize_scope_list, Hsc. cbn [rbind].
  unfold OAuth2Token.__attrs_post_init__.
  cbn [OAuth2Token.expires_at].
  destruct t as [a e sc st ty ea rt]; cbn in *.
  destruct ea; try reflexivity. congruence.
Qed.

(** C7. A token built by the constructor, whose attributes hold values
    of their declared types, is returned unchanged (every attribute,
    [expires_at] included) by [from_dict] applied to its [to_dict], at
    whatever time the round trip is made. *)
Theorem from_dict_to_dict_round_trip (now now' : float) (kwargs : dict)
  (t : OAuth2Token.t) :
  OAuth2Token.init now kwargs = Ok t ->
  OAuth2Token.has_declared_types t = true ->
  OAuth2Token.from_dict now' (OAuth2Token.to_dict t) false = Ok t.
Proof.
  intros Hinit Hty. unfold OAuth2Token.from_dict. cbn [rbind].
  apply init_of_to_dict.
  - exact Hty.
  - exact (init_scope_sorted _ _ Hinit).
  - exact (init_expires_at_set _ _ Hinit).
Qed.

Lemma from_dict_to_dict_round_trip_witness :
  exists t,
    OAuth2Token.init (float_of_Z 1000)
      [("access_token", PStr "BQDx"); ("expires_in", PInt 3600);
       ("scope", PStr "user-read-email playlist-read-private");
       ("refresh_token", PStr "AQCy")] = Ok t
    /\ OAuth2Token.from_dict (float_of_Z 5000) (OAuth2Token.to_dict t) false = Ok t.
Proof.
  eexists. split; [reflexivity |].
  apply (@from_dict_to_dict_round_trip (float_of_Z 1000) (float_of_Z 5000)
           [("access_token", PStr "BQDx"); ("expires_in", PInt 3600);
            ("scope", PStr "user-read-email playlist-read-private");
            ("refresh_token", PStr "AQCy")]); reflexivity.
Defined.

Lemma normalize_scope_raises (v : PyVal) (e : exn) :
  normalize_scope v = Raise e -> e = TypeError.
Proof.
  unfold normalize_scope. destruct (negb (truthy v)); [discriminate |].
  destruct v; intro H; inversion H; reflexivity.
Qed.

Lemma float_of_int_raises (z : Z) (e : exn) :
  float_of_int z = Raise e -> e = OverflowError.
Proof.
  unfold float_of_int. destruct (float_of_Z z); intro H; inversion H; reflexivity.
Qed.

(** The constructor raises [TypeError], or [OverflowError] when an
    [int] given for [expires_in] is beyond the range of a float. *)
Lemma init_raises (now : float) (kwargs : dict) (e : exn) :
  OAuth2Token.init now kwargs = Raise e -> e = TypeError \/ e = OverflowError.
Proof.
  unfold OAuth2Token.init.
  destruct (negb (forallb _ (keys kwargs)));
    [intro H; inversion H; left; reflexivity |].
  destruct (dict_get "access_token" kwargs) as [a |];
    [| intro H; inversion H; left; reflexivity].
  destruct (dict_get "expires_in" kwargs) as [ei |];
    [| intro H; inversion H; left; reflexivity].
  destruct (dict_get "scope" kwargs) as [sc |];
    [| intro H; inversion H; left; reflexivity].
  destruct (normalize_scope sc) as [sc' | e'] eqn:Hsc; cbn [rbind].
  - unfold OAuth2Token.__attrs_post_init__. cbn [OAuth2Token.expires_at].
    destruct (get_default "expires_at" PNone kwargs); try discriminate.
    cbn [OAuth2Token.expires_in].
    destruct (py_num ei) as [[z | x] |]; cbn [as_float rbind].
    + destruct (float_of_int z) as [x | ex] eqn:Hz; [discriminate |].
      cbn [rbind]. intro H. inversion H. subst. right.
      eapply float_of_int_raises, Hz.
    + discriminate.
    + intro H; inversion H; left; reflexivity.
  - intro H. inversion H. subst. left. eapply normalize_scope_raises, Hsc.
Qed.

(* ------------------------------------------------------------------ *)
(** ** Sessions *)

Section SessionProperties.

Import Sessions.

Variables W Request Response : Type.
Context {X : External W Request Response}.

Local Abbreviation Store := (Sessions.Store W).
Local Abbreviation M := (Sessions.M W Request).
Local Abbreviation Action := (Sessions.Action Request).
Local Abbreviation Listeners := (Sessions.Listeners W).
Local Abbreviation Callback := (Sessions.Callback W).

Local Open Scope list_scope.

(** *** Running the monad *)

Lemma bind_ok {A B : Type} (m : M A) (f : A -> M B) (s s1 : Store) (a : A)
  (t1 : list Action) :
  m s = (Ok a, s1, t1) ->
  bind m f s
  = match f a s1 with (r, s2, t2) => (r, s2, t1 ++ t2) end.
Proof. intro H. unfold bind. rewrite H. reflexivity. Qed.

Lemma bind_raise {A B : Type} (m : M A) (f : A -> M B) (s s1 : Store)
  (e : exn) (t1 : list Action) :
  m s = (Raise e, s1, t1) -> bind m f s = (Raise e, s1, t1).
Proof. intro H. unfold bind. rewrite H. reflexivity. Qed.

Lemma count_app (p : Action -> bool) (a b : list Action) :
  count p (a ++ b) = (count p a + count p b)%nat.
Proof. unfold count. rewrite filter_app, length_app. reflexivity. Qed.

(** Listeners leave no trace of their own. *)
Lemma run_listeners_shape (cbs : list Callback) (e : SessionEvent) (s : Store) :
  exists r s', run_listeners (Request := Request) cbs e s = (r, s', []).
Proof.
  revert s. induction cbs as [| cb rest IH]; intro s; simpl.
  - exists (Ok tt), s. reflexivity.
  - unfold bind, call_listener.
    destruct (cb e s) as [[u | ex] s1].
    + destruct (IH s1) as (r & s2 & E). rewrite E. exists r, s2. reflexivity.
    + exists (Raise ex), s1. reflexivity.
Qed.

Lemma notify_run (L : Listeners) (e : SessionEvent) (s : Store) :
  _notify_listeners (Request := Request) L e s
  = match run_listeners (Request := Request) (listeners_for L e) e s with
    | (r, s', _) => (r, s', [Notified e])
    end.
Proof.
  unfold _notify_listeners, bind, emit.
  destruct (run_listeners_shape (listeners_for L e) e s) as (r & s' & E).
  rewrite E. reflexivity.
Qed.

(** *** set_token *)

Lemma assign_session_token_run (d : dict) (s : Store) :
  assign_session_token (Request := Request) d s
  = match session_set_token d (world s) with
    | (r, w) => (r, with_world w s, [])
    end.
Proof. reflexivity. Qed.

(** The block that stores the token has three outcomes: it raises
    before the token is assigned, leaving the current token alone; it
    assigns exactly one token and returns; or it assigns one token and
    then raises (the setter of the wrapped session rejected the map). *)
Lemma store_token_cases (tok : TokenType) (s : Store) :
  (exists e s1, store_token tok s = (Raise e, s1, [])
                /\ _token s1 = _token s)
  \/ (exists new s1, store_token tok s = (Ok tt, s1, [Installed new])
                     /\ _token s1 = Some new)
  \/ (exists new e s1, store_token tok s = (Raise e, s1, [Installed new])
                       /\ _token s1 = Some new).
Proof.
  destruct (store_token tok s) as [[r s1] tr] eqn:E.
  destruct tok as [d | t | v]; unfold store_token in E.
  - destruct (negb (dict_has "scope" d)).
    + unfold bind at 1 in E. rewrite assign_session_token_run in E.
      destruct (session_set_token d (world s)) as [[[] | ex] w].
      * unfold bind, modify, scope, token, gets,
          new_token, lift_result, assign_token, ret, emit in E; cbn in E.
        destruct (_token s) as [old |] eqn:Hold; cbn in E.
        -- destruct (OAuth2Token.init _ _) as [new | ex]; cbn in E;
             inversion E; subst.
           ++ right. left. eexists. eexists. split; reflexivity.
           ++ left. eexists. eexists. split; [reflexivity | exact Hold].
        -- destruct (normalize_scope _) as [sc | ex]; cbn in E.
           ++ destruct (OAuth2Token.init _ _) as [new | ex]; cbn in E;
                inversion E; subst.
              ** right. left. eexists. eexists. split; reflexivity.
              ** left. eexists. eexists. split; [reflexivity | exact Hold].
           ++ inversion E; subst.
              left. eexists. eexists. split; [reflexivity | exact Hold].
      * inversion E; subst. left. eexists. eexists. split; reflexivity.
    + unfold bind at 1 in E. unfold new_token at 1 in E.
      unfold bind at 1 in E. unfold gets at 1, lift_result at 1 in E.
      destruct (OAuth2Token.init _ _) as [new | ex]; cbn [app] in E.
      * unfold bind at 1 in E. unfold assign_token at 1 in E.
        unfold bind at 1 in E. unfold modify at 1, emit at 1 in E.
        cbn [app] in E. rewrite assign_session_token_run in E.
        cbn [world with_token] in E.
        destruct (session_set_token _ _) as [[[] | ex] w];
          inversion E; subst.
        -- right. left. eexists. eexists. split; reflexivity.
        -- right. right. eexists. eexists. eexists. split; reflexivity.
      * inversion E; subst. left. eexists. eexists. split; reflexivity.
  - unfold bind at 1 in E. unfold assign_token at 1 in E.
    unfold bind at 1 in E. unfold modify at 1, emit at 1 in E.
    cbn [app] in E. rewrite assign_session_token_run in E.
    cbn [world with_token] in E.
    destruct (session_set_token _ _) as [[[] | ex] w]; inversion E; subst.
    + right. left. eexists. eexists. split; reflexivity.
    + right. right. eexists. eexists. eexists. split; reflexivity.
  - inversion E; subst. left. exists TypeError, s1. split; reflexivity.
Qed.

Lemma set_token_run (L : Listeners) (tok : TokenType) (s : Store) :
  set_token L tok s
  = match store_token tok s with
    | (Ok _, s1, tr1) =>
        match run_listeners (Request := Request) (token_updated L)
                (TokenUpdatedEvent (_token s) (_token s1)) s1 with
        | (r, s2, _) =>
            (r, s2, tr1 ++ [Notified (TokenUpdatedEvent (_token s) (_token s1))])
        end
    | (Raise e, s1, tr1) => (Raise e, s1, tr1)
    end.
Proof.
  unfold set_token. unfold bind at 1. unfold token at 1, gets at 1.
  unfold bind at 1.
  destruct (store_token tok s) as [[[u | e] s1] tr1]; [| reflexivity].
  unfold bind, token, gets. rewrite notify_run. cbn [listeners_for].
  destruct (run_listeners _ _ s1) as [[r s2] tr2]. cbn.
  reflexivity.
Qed.

Lemma set_token_accepted (L : Listeners) (tok : TokenType) (s s1 : Store)
  (tr1 : list Action) :
  store_token tok s = (Ok tt, s1, tr1) ->
  exists new r s2,
    _token s1 = Some new
    /\ tr1 = [Installed new]
    /\ run_listeners (token_updated L)
         (TokenUpdatedEvent (_token s) (Some new)) s1
       = (r, s2, ([] : list Action))
    /\ set_token L tok s
       = (r, s2, [Installed new; Notified (TokenUpdatedEvent (_token s) (Some new))]).
Proof.
  intro H.
  destruct (store_token_cases tok s)
    as [(e & s' & E & _) | [(new & s' & E & Hnew) | (new & e & s' & E & _)]];
    rewrite E in H; inversion H; subst s1 tr1.
  destruct (run_listeners_shape (token_updated L)
              (TokenUpdatedEvent (_token s) (Some new)) s') as (r & s2 & Er).
  exists new, r, s2. repeat split; try assumption.
  rewrite set_token_run, E, Hnew, Er. reflexivity.
Qed.

(** [set_token] of a token: the token is assigned first, then its map
    without [scope] goes to the setter of the wrapped session. *)
Lemma store_token_Token (t : OAuth2Token.t) (s : Store) :
  store_token (Token t) s
  = match session_set_token (dict_del "scope" (OAuth2Token.to_dict t))
            (world s) with
    | (r, w) => (r, with_world w (with_token (Some t) s), [Installed t])
    end.
Proof.
  unfold store_token, assign_token, assign_session_token, bind, modify, emit,
    call_world.
  cbn [world with_token].
  destruct (session_set_token _ _) as [[[] | ex] w]; reflexivity.
Qed.

Lemma store_token_Token_accepted (t : OAuth2Token.t) (s : Store) :
  fst (session_set_token (dict_del "scope" (OAuth2Token.to_dict t)) (world s))
  = Ok tt ->
  store_token (Token t) s
  = (Ok tt,
     with_world
       (snd (session_set_token (dict_del "scope" (OAuth2Token.to_dict t))
               (world s)))
       (with_token (Some t) s),
     [Installed t]).
Proof.
  intro H. rewrite store_token_Token.
  destruct (session_set_token _ _) as [r w]. cbn in *. subst r. reflexivity.
Qed.

(** *** Every assignment of the token is notified *)

Lemma balanced_app (a b : list Action) :
  balanced a -> balanced b -> balanced (a ++ b).
Proof. unfold balanced. intros Ha Hb. rewrite !count_app. congruence. Qed.

Lemma Bal_bind {A B : Type} (m : M A) (f : A -> M B) :
  Bal m -> (forall a, Bal (f a)) -> Bal (bind m f).
Proof.
  intros Hm Hf s. unfold bind. specialize (Hm s).
  destruct (m s) as [[[a | e] s1] t1]; cbn in *.
  - specialize (Hf a s1). destruct (f a s1) as [[[b | e] s2] t2]; cbn in *.
    + apply balanced_app; assumption.
    + unfold balanced in *. rewrite !count_app.
      destruct Hf as [Hf | Hf]; [left | right]; lia.
  - exact Hm.
Qed.

Lemma Bal_silent {A : Type} (m : M A) : (forall s, snd (m s) = []) -> Bal m.
Proof.
  intros H s. specialize (H s). destruct (m s) as [[[a | e] s1] tr].
  - cbn in *. subst tr. reflexivity.
  - cbn in *. subst tr. left. reflexivity.
Qed.

Lemma Bal_emit (a : Action) :
  is_updated_event a = false -> is_installed a = false ->
  Bal (emit a : M unit).
Proof.
  intros Hu Hi s. unfold emit, notified_assignments, balanced, count. cbn.
  rewrite Hu, Hi. reflexivity.
Qed.

Lemma Bal_call_world {A : Type} (op : W -> Result A * W) :
  Bal (call_world (Request := Request) op).
Proof.
  apply Bal_silent. intro s. unfold call_world. destruct (op (world s)).
  reflexivity.
Qed.

Lemma Bal_set_token (L : Listeners) (tok : TokenType) : Bal (set_token L tok).
Proof.
  intro s. rewrite set_token_run.
  destruct (store_token_cases tok s)
    as [(e & s' & E & _) | [(new & s' & E & Hnew) | (new & e & s' & E & _)]];
    rewrite E.
  - left. reflexivity.
  - destruct (run_listeners _ _ s') as [[[u | e] s2] tr].
    + reflexivity.
    + left. reflexivity.
  - right. reflexivity.
Qed.

Lemma Bal_gets {A : Type} (f : Store -> A) : Bal (gets (Request := Request) f).
Proof. apply Bal_silent. reflexivity. Qed.

Lemma Bal_ret {A : Type} (a : A) : Bal (ret (Request := Request) (W := W) a).
Proof. apply Bal_silent. reflexivity. Qed.

Lemma Bal_fetch_token_cc (L : Listeners) :
  Bal (ClientCredentialsSession_fetch_token L).
Proof.
  unfold ClientCredentialsSession_fetch_token.
  repeat first
    [ apply Bal_set_token | apply Bal_bind; [| intros ?]
    | apply Bal_call_world | apply Bal_gets | apply Bal_ret
    | apply Bal_emit; reflexivity ].
Qed.

Lemma Bal_fetch_token_given_code (L : Listeners) (code state : string) :
  Bal (AuthorizationCodeSession_fetch_token_given_code L code state).
Proof.
  unfold AuthorizationCodeSession_fetch_token_given_code.
  repeat first
    [ apply Bal_set_token | apply Bal_bind; [| intros ?]
    | apply Bal_call_world | apply Bal_gets | apply Bal_ret
    | apply Bal_emit; reflexivity ].
Qed.

Lemma Bal_read_token (L : Listeners) (url : string) :
  Bal (read_token_from_callback_url L url).
Proof.
  unfold read_token_from_callback_url.
  repeat first
    [ apply Bal_set_token | apply Bal_bind; [| intros ?]
    | apply Bal_call_world | apply Bal_gets | apply Bal_ret
    | apply Bal_emit; reflexivity ].
Qed.

(** A string is never equal to a pair: ['error' in params] is false for
    every list of pairs. *)
Lemma py_in_pairs (x : string) (params : list (string * string)) :
  py_in (PStr x) (map pair_value params) = false.
Proof.
  induction params as [| kv r IH]; [reflexivity |].
  cbn [map py_in existsb]. exact IH.
Qed.

Lemma fetch_token_ac_run (L : Listeners) (url : string) (s : Store) :
  AuthorizationCodeSession_fetch_token L url s
  = match session_fetch_token (WithResponse url (_client_secret s)) (world s) with
    | (Raise e, w) =>
        (Raise e, with_world w s, [Exchange (WithResponse url (_client_secret s))])
    | (Ok d, w) =>
        match set_token L (Dict d) (with_world w s) with
        | (Ok _, s2, tr) =>
            (Ok (_token s2), s2, Exchange (WithResponse url (_client_secret s)) :: tr)
        | (Raise e, s2, tr) =>
            (Raise e, s2, Exchange (WithResponse url (_client_secret s)) :: tr)
        end
    end.
Proof.
  unfold AuthorizationCodeSession_fetch_token. rewrite py_in_pairs.
  unfold bind at 1. unfold gets at 1. unfold bind at 1. unfold emit at 1.
  unfold bind at 1. unfold call_world at 1.
  destruct (session_fetch_token _ (world s)) as [[d | e] w]; [| reflexivity].
  unfold bind at 1.
  destruct (set_token L (Dict d) (with_world w s)) as [[[u | e] s2] tr].
  - unfold token, gets. cbn. rewrite app_nil_r. reflexivity.
  - reflexivity.
Qed.

Lemma Bal_fetch_token_ac (L : Listeners) (url : string) :
  Bal (AuthorizationCodeSession_fetch_token L url).
Proof.
  unfold AuthorizationCodeSession_fetch_token. rewrite py_in_pairs.
  repeat first
    [ apply Bal_set_token | apply Bal_bind; [| intros ?]
    | apply Bal_call_world | apply Bal_gets | apply Bal_ret
    | apply Bal_emit; reflexivity ].
Qed.

Lemma Bal_refresh_token (f : Flow) (L : Listeners) :
  Bal (refresh_token (_refresh_token_of f) L).
Proof.
  unfold refresh_token.
  apply Bal_bind; [apply Bal_emit; reflexivity |]. intros _.
  apply Bal_bind; [| intro tok; apply Bal_set_token].
  destruct f; unfold _refresh_token_of.
  - unfold ClientCredentialsSession__refresh_token.
    apply Bal_bind; [apply Bal_fetch_token_cc | intro t; apply Bal_ret].
  - apply Bal_silent. reflexivity.
  - unfold AuthorizationCodeSession__refresh_token.
    repeat first
      [ apply Bal_set_token | apply Bal_bind; [| intros ?]
      | apply Bal_call_world | apply Bal_gets | apply Bal_ret
      | apply Bal_emit; reflexivity ].
Qed.

(** C1. On the callback URL
    ["https://redirect?error=access_denied&state=xyz"], in every outside
    world, [fetch_token] does not stop at the error check: its first
    step is the token exchange with the wrapped session, and what it
    returns or raises is what the exchange and [set_token] return or
    raise. *)
Theorem fetch_token_reaches_exchange (L : Listeners) (s : Store) :
  AuthorizationCodeSession_fetch_token L
    "https://redirect?error=access_denied&state=xyz" s
  = match session_fetch_token
            (WithResponse "https://redirect?error=access_denied&state=xyz"
               (_client_secret s)) (world s) with
    | (Raise e, w) =>
        (Raise e, with_world w s,
         [Exchange (WithResponse "https://redirect?error=access_denied&state=xyz"
                      (_client_secret s))])
    | (Ok d, w) =>
        match set_token L (Dict d) (with_world w s) with
        | (Ok _, s2, tr) =>
            (Ok (_token s2), s2,
             Exchange (WithResponse "https://redirect?error=access_denied&state=xyz"
                         (_client_secret s)) :: tr)
        | (Raise e, s2, tr) =>
            (Raise e, s2,
             Exchange (WithResponse "https://redirect?error=access_denied&state=xyz"
                         (_client_secret s)) :: tr)
        end
    end.
Proof. apply fetch_token_ac_run. Qed.

(** C5 (as the code has it). Whenever the block of [set_token] that
    stores the token returns, the session's token is the new token when
    the listeners are called, and the trace of [set_token] is one
    assignment followed by one token-updated notification carrying the
    old token (or [None]) and the new one; for a [Token] argument the
    block returns whenever the setter of the wrapped session accepts
    the token's map, also when the token is the one the session already
    holds.  On every path that installs tokens ([fetch_token] of both
    refreshable sessions, [fetch_token_given_code],
    [read_token_from_callback_url], [refresh_token] of both flows) a
    run that returns has fired exactly as many token-updated
    notifications as it made assignments of the token, and a run that
    raises has left at most its last assignment without one. *)
Theorem set_token_fires_one_update (L : Listeners) (tok : TokenType)
  (s s1 : Store) (tr1 : list Action) :
  store_token tok s = (Ok tt, s1, tr1) ->
  (exists new r s2,
      _token s1 = Some new
      /\ run_listeners (token_updated L)
           (TokenUpdatedEvent (_token s) (Some new)) s1
         = (r, s2, ([] : list Action))
      /\ set_token L tok s
         = (r, s2,
            [Installed new; Notified (TokenUpdatedEvent (_token s) (Some new))]))
  /\ (forall t s0,
        _token s0 = Some t ->
        fst (session_set_token (dict_del "scope" (OAuth2Token.to_dict t))
               (world s0)) = Ok tt ->
        exists r s2,
          set_token L (Token t) s0
          = (r, s2,
             [Installed t; Notified (TokenUpdatedEvent (Some t) (Some t))]))
  /\ (forall s0, notified_assignments (ClientCredentialsSession_fetch_token L s0))
  /\ (forall url s0,
        notified_assignments (AuthorizationCodeSession_fetch_token L url s0))
  /\ (forall code state s0,
        notified_assignments
          (AuthorizationCodeSession_fetch_token_given_code L code state s0))
  /\ (forall url s0, notified_assignments (read_token_from_callback_url L url s0))
  /\ (forall f s0,
        notified_assignments (refresh_token (_refresh_token_of f) L s0)).
Proof.
  intro H. split; [| split; [| repeat split]].
  - destruct (set_token_accepted L tok s H) as (new & r & s2 & Hn & _ & Hr & Hs).
    exists new, r, s2. repeat split; assumption.
  - intros t s0 Ht Hacc.
    destruct (set_token_accepted L (Token t) s0 (store_token_Token_accepted t s0 Hacc))
      as (new & r & s2 & Hn & Htr & _ & Hs).
    inversion Htr; subst new. rewrite Ht in Hs. exists r, s2. exact Hs.
  - apply Bal_fetch_token_cc.
  - intros url. apply Bal_fetch_token_ac.
  - intros code state. apply Bal_fetch_token_given_code.
  - intros url. apply Bal_read_token.
  - intros f. apply Bal_refresh_token.
Qed.

(** *** request *)

Lemma token_is_expired_run (s : Store) (t : OAuth2Token.t) :
  _token s = Some t ->
  OAuth2Token.is_expired (time_time (world s)) t OAuth2Token.default_margin
  = Ok true ->
  token_is_expired s = (Ok (Some t), s, []).
Proof.
  intros Ht He. unfold token_is_expired, bind, token, gets, lift_result, ret.
  rewrite Ht. cbn. rewrite He. reflexivity.
Qed.

Lemma outbound_run (req : Request) (wh : bool) (s : Store) :
  outbound req wh s
  = match session_request req wh (world s) with
    | (r, w) => (r, with_world w s, [Outbound req wh (_token s)])
    end.
Proof.
  unfold outbound, bind, token, gets, emit, call_world. cbn.
  destruct (session_request req wh (world s)) as [r w]. reflexivity.
Qed.

Lemma keeps_token_run (cbs : list Callback) (e : SessionEvent) (s : Store) :
  Forall keeps_token cbs ->
  _token (snd (fst (run_listeners (Request := Request) cbs e s))) = _token s.
Proof.
  intro H. revert s. induction H as [| cb rest Hcb _ IH]; intro s.
  - reflexivity.
  - cbn [run_listeners]. unfold bind, call_listener.
    specialize (Hcb e s). destruct (cb e s) as [[u | ex] s1]; cbn in Hcb.
    + specialize (IH s1). destruct (run_listeners rest e s1) as [[r s2] tr].
      cbn in *. congruence.
    + exact Hcb.
Qed.

Lemma quiet_run (cbs : list Callback) (e : SessionEvent) (s : Store) :
  Forall quiet cbs ->
  exists s', run_listeners (Request := Request) cbs e s = (Ok tt, s', [])
             /\ _token s' = _token s.
Proof.
  intro H. revert s. induction H as [| cb rest Hcb _ IH]; intro s.
  - exists s. split; reflexivity.
  - cbn [run_listeners]. unfold bind, call_listener.
    destruct (Hcb e s) as [Hr Ht]. destruct (cb e s) as [r1 s1]; cbn in Hr, Ht.
    subst r1. destruct (IH s1) as (s2 & E & Ht2). rewrite E.
    exists s2. split; [reflexivity | congruence].
Qed.

Lemma set_token_quiet (L : Listeners) (tok : TokenType) (s s1 : Store)
  (new : OAuth2Token.t) :
  Forall quiet (token_updated L) ->
  store_token tok s = (Ok tt, s1, [Installed new]) ->
  _token s1 = Some new ->
  exists s2,
    set_token L tok s
    = (Ok tt, s2, [Installed new; Notified (TokenUpdatedEvent (_token s) (Some new))])
    /\ _token s2 = Some new.
Proof.
  intros Hq Hst Hn.
  destruct (quiet_run (TokenUpdatedEvent (_token s) (Some new)) s1 Hq)
    as (s2 & Er & Ht).
  exists s2. split; [| congruence].
  rewrite set_token_run, Hst, Hn, Er. reflexivity.
Qed.

(** C4. When a session of the implicit-grant flow holds an expired
    token, [request] fires exactly one token-expired event and takes no
    step that obtains or installs a token.  If the dispatch returns, the
    outbound call follows at once, made with the token the session holds
    after the dispatch, which is the expired token itself when no
    listener assigned the token; if a listener raises, the exception
    leaves [request] and no call is made. *)
Theorem implicit_grant_request_no_renewal (L : Listeners) (req : Request)
  (wh : bool) (s s1 : Store) (t : OAuth2Token.t) (r1 : Result unit) :
  _token s = Some t ->
  OAuth2Token.is_expired (time_time (world s)) t OAuth2Token.default_margin
  = Ok true ->
  run_listeners (token_expired L) (TokenExpiredEvent t wh) s
  = (r1, s1, ([] : list Action)) ->
  exists r sF tr,
    request IMPLICIT_GRANT L req wh s = (r, sF, tr)
    /\ count is_expired_event tr = 1%nat
    /\ count is_renewal tr = 0%nat
    /\ match r1 with
       | Ok _ =>
           tr = [Notified (TokenExpiredEvent t wh); Outbound req wh (_token s1)]
           /\ (r, sF) = (fst (session_request req wh (world s1)),
                         with_world (snd (session_request req wh (world s1))) s1)
       | Raise e =>
           tr = [Notified (TokenExpiredEvent t wh)] /\ r = Raise e /\ sF = s1
       end
    /\ (Forall keeps_token (token_expired L) -> _token s1 = Some t).
Proof.
  intros Ht He Hd.
  assert (Hk : Forall keeps_token (token_expired L) -> _token s1 = Some t).
  { intro Hk. rewrite <- Ht.
    pose proof (keeps_token_run (TokenExpiredEvent t wh) s Hk) as K.
    rewrite Hd in K. exact K. }
  unfold request, BaseOAuth2Session_request.
  erewrite bind_ok; [| exact (token_is_expired_run s Ht He)].
  cbn [app]. unfold bind at 1. rewrite notify_run. cbn [listeners_for].
  rewrite Hd. destruct r1 as [u | e].
  - rewrite outbound_run.
    destruct (session_request req wh (world s1)) as [r w].
    exists r, (with_world w s1). eexists. split; [reflexivity |].
    repeat split. exact Hk.
  - exists (Raise e), s1. eexists. split; [reflexivity |].
    repeat split. exact Hk.
Qed.

Lemma store_token_installs (tok : TokenType) (s s1 : Store)
  (tr1 : list Action) :
  store_token tok s = (Ok tt, s1, tr1) ->
  exists new, _token s1 = Some new /\ tr1 = [Installed new].
Proof.
  intro H.
  destruct (store_token_cases tok s)
    as [(e & s' & E & _) | [(new & s' & E & Hnew) | (new & e & s' & E & _)]];
    rewrite E in H; inversion H; subst.
  exists new. split; [assumption | reflexivity].
Qed.

Lemma refresh_token_ac_run (L : Listeners) (s1 s2 : Store) (d : dict) (w2 : W)
  (new : OAuth2Token.t) :
  Forall quiet (token_updated L) ->
  session_refresh_token (world s1) = (Ok d, w2) ->
  store_token (Dict d) (with_world w2 s1) = (Ok tt, s2, [Installed new]) ->
  _token s2 = Some new ->
  exists s3,
    refresh_token (_refresh_token_of AUTHORIZATION_CODE) L s1
    = (Ok tt, s3,
       [RefreshToken; Renew; Installed new;
        Notified (TokenUpdatedEvent (_token s1) (Some new))])
    /\ _token s3 = Some new.
Proof.
  intros Hq Hr Hst Hn.
  destruct (set_token_quiet L _ _ Hq Hst Hn) as (s3 & Es & Ht).
  exists s3. split; [| exact Ht].
  unfold refresh_token, _refresh_token_of,
    AuthorizationCodeSession__refresh_token.
  unfold bind, emit, call_world, ret. rewrite Hr, Es. reflexivity.
Qed.

Lemma refresh_token_cc_run (L : Listeners) (s1 s2 : Store) (d : dict) (w2 : W)
  (new : OAuth2Token.t) :
  Forall quiet (token_updated L) ->
  session_fetch_token (WithSecret (_client_secret s1)) (world s1) = (Ok d, w2) ->
  store_token (Dict d) (with_world w2 s1) = (Ok tt, s2, [Installed new]) ->
  _token s2 = Some new ->
  (forall w, fst (session_set_token
                    (dict_del "scope" (OAuth2Token.to_dict new)) w) = Ok tt) ->
  exists s4,
    refresh_token (_refresh_token_of CLIENT_CREDENTIALS) L s1
    = (Ok tt, s4,
       [RefreshToken; Exchange (WithSecret (_client_secret s1));
        Installed new; Notified (TokenUpdatedEvent (_token s1) (Some new));
        Installed new; Notified (TokenUpdatedEvent (Some new) (Some new))])
    /\ _token s4 = Some new.
Proof.
  intros Hq Hr Hst Hn Hacc.
  destruct (set_token_quiet L _ _ Hq Hst Hn) as (s3 & Es & Ht).
  destruct (set_token_quiet L (Token new) s3 Hq
              (store_token_Token_accepted new s3 (Hacc (world s3))) eq_refl)
    as (s4 & Es4 & Ht4).
  exists s4. split; [| exact Ht4].
  unfold refresh_token, _refresh_token_of,
    ClientCredentialsSession__refresh_token,
    ClientCredentialsSession_fetch_token.
  unfold bind, emit, call_world, ret, token, gets. rewrite Hr, Es.
  cbn [fst snd app]. rewrite Ht. cbn [as_token_type]. rewrite Es4, Ht.
  reflexivity.
Qed.

(** C3. A session of a refreshable flow holds an expired token,
    auto-refresh is enabled and [withhold_token] is false.  If the
    token-expired dispatch returns with auto-refresh still enabled, the
    renewal call of the flow returns a map that [set_token] accepts (in
    the client-credentials flow, where [refresh_token] hands the token
    just installed to [set_token] once more, the wrapped session takes
    the map of that token as well), and the token-updated listeners
    return without assigning the token, then the trace of [request] is:
    one token-expired event, one invocation of [refresh_token], the
    steps of that refresh (among them the assignment of the new token,
    and no further event, refresh or call), and last the outbound call,
    made while the session's token is the newly obtained one. *)
Theorem refreshable_request_refreshes_once (f : Flow) (L : Listeners)
  (req : Request) (s s1 s2 : Store) (t : OAuth2Token.t) (d : dict) (w2 : W)
  (tr2 : list Action) :
  f <> IMPLICIT_GRANT ->
  _token s = Some t ->
  OAuth2Token.is_expired (time_time (world s)) t OAuth2Token.default_margin
  = Ok true ->
  _auto_refresh s = true ->
  run_listeners (token_expired L) (TokenExpiredEvent t false) s
  = (Ok tt, s1, ([] : list Action)) ->
  _auto_refresh s1 = true ->
  match f with
  | CLIENT_CREDENTIALS =>
      session_fetch_token (WithSecret (_client_secret s1)) (world s1)
  | _ => session_refresh_token (world s1)
  end = (Ok d, w2) ->
  store_token (Dict d) (with_world w2 s1) = (Ok tt, s2, tr2) ->
  match f with
  | CLIENT_CREDENTIALS =>
      forall new w,
        _token s2 = Some new ->
        fst (session_set_token
               (dict_del "scope" (OAuth2Token.to_dict new)) w) = Ok tt
  | _ => True
  end ->
  Forall quiet (token_updated L) ->
  exists new r sF tr,
    _token s2 = Some new
    /\ request f L req false s
       = (r, sF,
          Notified (TokenExpiredEvent t false) :: RefreshToken
          :: tr ++ [Outbound req false (Some new)])
    /\ count is_expired_event tr = 0%nat
    /\ count is_refresh tr = 0%nat
    /\ count is_outbound tr = 0%nat
    /\ In (Installed new) tr
    /\ _token sF = Some new.
Proof.
  intros Hf Ht He _ Hd Hauto Hren Hst Hacc Hq.
  destruct (store_token_installs _ _ Hst) as (new & Hn & Htr). subst tr2.
  assert (Hrun : exists s3 tr,
             refresh_token (_refresh_token_of f) L s1
             = (Ok tt, s3, RefreshToken :: tr)
             /\ _token s3 = Some new
             /\ count is_expired_event tr = 0%nat
             /\ count is_refresh tr = 0%nat
             /\ count is_outbound tr = 0%nat
             /\ In (Installed new) tr).
  { destruct f; [| contradiction |].
    - destruct (refresh_token_cc_run L s1 Hq Hren Hst Hn
                  (fun w => Hacc new w Hn)) as (s4 & E & H4).
      exists s4. eexists. split; [exact E |]. repeat split; cbn; auto.
    - destruct (refresh_token_ac_run L s1 Hq Hren Hst Hn) as (s3 & E & H3).
      exists s3. eexists. split; [exact E |]. repeat split; cbn; auto. }
  destruct Hrun as (s3 & tr & Er & H3 & C1 & C2 & C3 & Hin).
  assert (Hreq : request f L req false s
                 = RefreshableOAuth2Session_request (_refresh_token_of f)
                     L req false s)
    by (destruct f; [reflexivity | contradiction | reflexivity]).
  rewrite Hreq. unfold RefreshableOAuth2Session_request.
  erewrite bind_ok; [| exact (token_is_expired_run s Ht He)].
  cbn [app]. unfold bind at 1. unfold bind at 1.
  rewrite notify_run. cbn [listeners_for]. rewrite Hd.
  unfold bind at 1. unfold gets at 1. rewrite Hauto. cbn [andb negb].
  rewrite Er. rewrite outbound_run, H3.
  destruct (session_request req false (world s3)) as [r w].
  exists new, r, (with_world w s3), tr.
  split; [exact Hn |]. split; [reflexivity |].
  repeat split; assumption.
Qed.

End SessionProperties.

(* ------------------------------------------------------------------ *)
(** ** The properties in the scripted world *)

Lemma example_listener_quiet : Sessions.quiet Sessions.example_listener.
Proof. intros e s. split; reflexivity. Qed.

Lemma set_token_fires_one_update_witness :
  exists r s2,
    Sessions.set_token Sessions.example_listeners
      (Sessions.Dict Sessions.example_token_map) Sessions.example_session
    = (r, s2,
       [Sessions.Installed Sessions.example_new_token;
        Sessions.Notified
          (Sessions.TokenUpdatedEvent (Some Sessions.example_old_token)
             (Some Sessions.example_new_token))]).
Proof.
  destruct (proj1
              (@set_token_fires_one_update float string nat Sessions.example_world
                 Sessions.example_listeners
                 (Sessions.Dict Sessions.example_token_map)
                 Sessions.example_session
                 (Sessions.mkStore (Some Sessions.example_new_token)
                    (PStr "secret") true (float_of_Z 5000))
                 [Sessions.Installed Sessions.example_new_token]
                 eq_refl))
    as (new & r & s2 & Hn & _ & E).
  inversion Hn; subst new. exists r, s2. exact E.
Defined.

(** C5 (as the spec has it) fails when the setter of the wrapped session
    raises after the token has been assigned.  The token below is one
    the constructor accepts; its [expires_in] is not a number.  In a
    world whose wrapped session reads [expires_in] as a number,
    [set_token] of that token replaces the session's token, raises
    [ValueError], and fires no token-updated notification. *)
Lemma set_token_replaces_without_update :
  OAuth2Token.init (float_of_Z 5000)
    (OAuth2Token.to_dict Sessions.example_vague_token)
  = Ok Sessions.example_vague_token
  /\ Sessions.set_token (X := Sessions.validating_world)
       Sessions.example_listeners
       (Sessions.Token Sessions.example_vague_token) Sessions.example_session
     = (Raise ValueError,
        Sessions.mkStore (Some Sessions.example_vague_token) (PStr "secret")
          true (float_of_Z 5000),
        [Sessions.Installed Sessions.example_vague_token])
  /\ Sessions.set_token (X := Sessions.validating_world)
       Sessions.example_listeners
       (Sessions.Dict (OAuth2Token.to_dict Sessions.example_vague_token))
       Sessions.example_session
     = (Raise ValueError,
        Sessions.mkStore (Some Sessions.example_vague_token) (PStr "secret")
          true (float_of_Z 5000),
        [Sessions.Installed Sessions.example_vague_token])
  /\ Sessions._token Sessions.example_session
     = Some Sessions.example_old_token.
Proof. repeat split. Qed.

Lemma implicit_grant_request_no_renewal_witness :
  exists r sF,
    Sessions.request Sessions.IMPLICIT_GRANT Sessions.example_listeners
      "GET https://api.spotify.com/v1/me" false Sessions.example_session
    = (r, sF,
       [Sessions.Notified
          (Sessions.TokenExpiredEvent Sessions.example_old_token false);
        Sessions.Outbound "GET https://api.spotify.com/v1/me" false
          (Some Sessions.example_old_token)]).
Proof.
  destruct (@implicit_grant_request_no_renewal float string nat
              Sessions.example_world Sessions.example_listeners
              "GET https://api.spotify.com/v1/me" false
              Sessions.example_session Sessions.example_session
              Sessions.example_old_token (Ok tt) eq_refl eq_refl eq_refl)
    as (r & sF & tr & E & _ & _ & (Htr & _) & _).
  subst tr. exists r, sF. exact E.
Defined.

Lemma refreshable_request_refreshes_once_witness :
  exists r sF tr,
    Sessions.request Sessions.CLIENT_CREDENTIALS Sessions.example_listeners
      "GET https://api.spotify.com/v1/me" false Sessions.example_session
    = (r, sF,
       Sessions.Notified
         (Sessions.TokenExpiredEvent Sessions.example_old_token false)
       :: Sessions.RefreshToken
       :: tr ++ [Sessions.Outbound "GET https://api.spotify.com/v1/me" false
                   (Some Sessions.example_new_token)])%list.
Proof.
  assert (Hq : Forall Sessions.quiet
                 (Sessions.token_updated Sessions.example_listeners))
    by (repeat constructor; apply example_listener_quiet).
  assert (Hf : Sessions.CLIENT_CREDENTIALS <> Sessions.IMPLICIT_GRANT)
    by discriminate.
  destruct (@refreshable_request_refreshes_once float string nat
              Sessions.example_world Sessions.CLIENT_CREDENTIALS
              Sessions.example_listeners
              "GET https://api.spotify.com/v1/me"
              Sessions.example_session Sessions.example_session
              (Sessions.mkStore (Some Sessions.example_new_token)
                 (PStr "secret") true (float_of_Z 5000))
              Sessions.example_old_token Sessions.example_token_map
              (float_of_Z 5000)
              [Sessions.Installed Sessions.example_new_token]
              Hf eq_refl eq_refl eq_refl eq_refl eq_refl eq_refl eq_refl
              (fun _ _ _ => eq_refl) Hq)
    as (new & r & sF & tr & Hn & E & _).
  inversion Hn; subst new. exists r, sF, tr. exact E.
Defined.

(** In the client-credentials flow one [refresh_token] assigns the token
    twice ([fetch_token] installs it, and [refresh_token] installs what
    [fetch_token] returned), so two token-updated notifications are
    fired, the second with the same token as old and new. *)
Example client_credentials_refresh_installs_twice :
  snd (Sessions.refresh_token
         (Sessions._refresh_token_of Sessions.CLIENT_CREDENTIALS)
         Sessions.example_listeners Sessions.example_session)
  = [Sessions.RefreshToken;
     Sessions.Exchange (Sessions.WithSecret (PStr "secret"));
     Sessions.Installed Sessions.example_new_token;
     Sessions.Notified
       (Sessions.TokenUpdatedEvent (Some Sessions.example_old_token)
          (Some Sessions.example_new_token));
     Sessions.Installed Sessions.example_new_token;
     Sessions.Notified
       (Sessions.TokenUpdatedEvent (Some Sessions.example_new_token)
          (Some Sessions.example_new_token))].
Proof. reflexivity. Qed.

(** In the scripted world the query of the callback URL parses to the
    pair [("error", "access_denied")], the error check still does not
    fire, and the token the exchange returned is installed. *)
Example fetch_token_access_denied_in_example_world :
  Sessions.example_parse_qsl
    (Sessions.example_query "https://redirect?error=access_denied&state=xyz")
  = [("error", "access_denied"); ("state", "xyz")]
  /\ Sessions.AuthorizationCodeSession_fetch_token Sessions.example_listeners
       "https://redirect?error=access_denied&state=xyz"
       Sessions.example_session
     = (Ok (Some Sessions.example_new_token),
        Sessions.mkStore (Some Sessions.example_new_token) (PStr "secret")
          true (float_of_Z 5000),
        [Sessions.Exchange
           (Sessions.WithResponse
              "https://redirect?error=access_denied&state=xyz" (PStr "secret"));
         Sessions.Installed Sessions.example_new_token;
         Sessions.Notified
           (Sessions.TokenUpdatedEvent (Some Sessions.example_old_token)
              (Some Sessions.example_new_token))]).
Proof. split; reflexivity. Qed.

(* ================================================================== *)
(** * Further properties *)

(* ------------------------------------------------------------------ *)
(** ** Resource identifiers: URLs, parsing and [get_id] *)

Lemma isalnum_char_not_slash (c : ascii) :
  isalnum_char c = true -> not_char "/" c = true.
Proof.
  destruct c as [b0 b1 b2 b3 b4 b5 b6 b7].
  destruct b0, b1, b2, b3, b4, b5, b6, b7; vm_compute; congruence.
Qed.

Lemma isalnum_no_slash (s : string) :
  isalnum s = true -> all_chars (not_char "/") s = true.
Proof.
  destruct s as [| c r]; [discriminate |].
  unfold isalnum. apply all_chars_impl. exact isalnum_char_not_slash.
Qed.

Lemma resource_type_no_slash (ty : string) :
  str_in ty RESOURCE_TYPES = true -> all_chars (not_char "/") ty = true.
Proof.
  intro H.
  destruct (resource_type_cases ty H) as [E | [E | [E | [E | E]]]];
    subst; reflexivity.
Qed.

Lemma prefix_append (p r : string) : String.prefix p (p ++ r) = true.
Proof.
  induction p as [| c p IH]; simpl.
  - destruct r; reflexivity.
  - destruct (ascii_dec c c) as [_ | N]; [exact IH | congruence].
Qed.

(** Joining the pieces of a split with the separator gives the string
    back. *)
Lemma concat_split (sep : ascii) (s : string) :
  String.concat (String sep EmptyString) (split sep s) = s.
Proof.
  induction s as [| c r IH]; [reflexivity |].
  cbn [split]. destruct (Ascii.eqb c sep) eqn:E.
  - apply Ascii.eqb_eq in E. subst c.
    destruct (split sep r) as [| w ws] eqn:Hs.
    + exfalso. exact (split_nonempty sep r Hs).
    + cbn [String.concat] in *. destruct ws; cbn in *; rewrite IH; reflexivity.
  - destruct (split sep r) as [| w ws] eqn:Hs.
    + exfalso. exact (split_nonempty sep r Hs).
    + cbn [String.concat] in *. destruct ws; cbn in *; rewrite <- IH; reflexivity.
Qed.

Lemma resource_init_inv (ty i : string) (o : option string)
  (r : ResourceInfo.t) :
  ResourceInfo.init ty i o = Ok r ->
  r = ResourceInfo.make ty i o
  /\ str_in ty RESOURCE_TYPES = true
  /\ isalnum i = true
  /\ (opt_truthy o = true ->
      ty = "playlist" /\ exists s, o = Some s /\ isalnum s = true).
Proof.
  unfold ResourceInfo.init, ResourceInfo.__attrs_post_init__.
  cbn [ResourceInfo.type ResourceInfo.id ResourceInfo.owner_id].
  destruct (str_in ty RESOURCE_TYPES); [| discriminate].
  destruct (isalnum i); [| discriminate]. cbn [negb].
  destruct (opt_truthy o) eqn:Ho.
  - destruct (String.eqb ty "playlist") eqn:Ety; [| discriminate].
    apply String.eqb_eq in Ety. cbn [negb].
    destruct o as [s |]; [| discriminate].
    destruct (isalnum s) eqn:Es; [| discriminate]. cbn [negb].
    intro H. inversion H. repeat split; auto. exists s. auto.
  - intro H. inversion H. repeat split; auto; discriminate.
Qed.

Lemma resource_init_raises (ty i : string) (o : option string) (e : exn) :
  ResourceInfo.init ty i o = Raise e -> e = ValueError.
Proof.
  unfold ResourceInfo.init, ResourceInfo.__attrs_post_init__.
  cbn [ResourceInfo.type ResourceInfo.id ResourceInfo.owner_id].
  repeat match goal with
         | |- context [if ?b then _ else _] => destruct b
         | |- context [match ?x with Some _ => _ | None => _ end] => destruct x
         end; intro H; inversion H; reflexivity.
Qed.

Lemma from_tokens_inv (tokens : list string) (u : string) (r : ResourceInfo.t) :
  ResourceInfo._from_tokens tokens u = Ok r ->
  (exists ty i, tokens = [ty; i] /\ ResourceInfo.init ty i None = Ok r)
  \/ (exists o ty i, tokens = ["user"; o; ty; i]
                     /\ ResourceInfo.init ty i (Some o) = Ok r).
Proof.
  unfold ResourceInfo._from_tokens.
  destruct tokens as [| a [| b [| c [| d [| e rest]]]]]; try discriminate.
  - intro H. left. exists a, b. split; [reflexivity | exact H].
  - destruct (String.eqb a "user") eqn:E; [| discriminate].
    apply String.eqb_eq in E. subst a. cbn [negb].
    intro H. right. exists b, c, d. split; [reflexivity | exact H].
Qed.

Lemma from_tokens_raises (tokens : list string) (u : string) (e : exn) :
  ResourceInfo._from_tokens tokens u = Raise e -> e = ValueError.
Proof.
  unfold ResourceInfo._from_tokens.
  destruct tokens as [| a [| b [| c [| d [| e' rest]]]]];
    try (intro H; inversion H; reflexivity).
  - apply resource_init_raises.
  - destruct (negb (String.eqb a "user")).
    + intro H; inversion H; reflexivity.
    + apply resource_init_raises.
Qed.

Lemma from_uri_tokens (u : string) :
  ResourceInfo.from_uri u = ResourceInfo._from_tokens (uri_tokens u) u.
Proof.
  unfold ResourceInfo.from_uri, uri_tokens.
  destruct (split ":" u) as [| t0 rest]; [reflexivity |].
  destruct (String.eqb t0 "spotify"); reflexivity.
Qed.

Lemma parse_inv (u : string) (r : ResourceInfo.t) :
  ResourceInfo.parse u = Ok r ->
  exists tokens, ResourceInfo._from_tokens tokens u = Ok r.
Proof.
  unfold ResourceInfo.parse, ResourceInfo.from_url.
  destruct (String.prefix "https" u).
  - destruct (negb (String.prefix OPEN_SPOTIFY_URL u)); [discriminate |].
    intro H. eexists. exact H.
  - rewrite from_uri_tokens. intro H. eexists. exact H.
Qed.

Lemma parse_ok_fields (u : string) (r : ResourceInfo.t) :
  ResourceInfo.parse u = Ok r ->
  str_in (ResourceInfo.type r) RESOURCE_TYPES = true
  /\ isalnum (ResourceInfo.id r) = true
  /\ match ResourceInfo.owner_id r with
     | Some o =>
         o = EmptyString
         \/ (ResourceInfo.type r = "playlist" /\ isalnum o = true)
     | None => True
     end.
Proof.
  intro H. destruct (parse_inv u H) as (tokens & Ht).
  assert (Hi : exists ty i o, ResourceInfo.init ty i o = Ok r).
  { destruct (from_tokens_inv _ _ Ht) as [(ty & i & _ & Hi) | (o & ty & i & _ & Hi)];
      eauto. }
  destruct Hi as (ty & i & o & Hi).
  destruct (resource_init_inv _ _ _ Hi) as (Er & Hty & Hid & Ho). subst r.
  cbn [ResourceInfo.type ResourceInfo.id ResourceInfo.owner_id].
  repeat split; try assumption.
  destruct o as [s |]; [| exact I].
  destruct (String.eqb s EmptyString) eqn:Es.
  - left. apply String.eqb_eq in Es. exact Es.
  - right. destruct Ho as (Hp & s' & Es' & Hs').
    + unfold opt_truthy. rewrite Es. reflexivity.
    + inversion Es'. subst s'. split; assumption.
Qed.

Lemma parse_raises (u : string) (e : exn) :
  ResourceInfo.parse u = Raise e -> e = ValueError.
Proof.
  unfold ResourceInfo.parse, ResourceInfo.from_url.
  destruct (String.prefix "https" u).
  - destruct (negb (String.prefix OPEN_SPOTIFY_URL u)).
    + intro H. inversion H. reflexivity.
    + apply from_tokens_raises.
  - rewrite from_uri_tokens. apply from_tokens_raises.
Qed.

(** X1. Whatever [parse] accepts (a URI or a URL), the result is well
    formed: its type is one of the five resource types, its id is
    alphanumeric, and an owner, if any and not empty, is alphanumeric and
    belongs to a playlist.  Whatever [parse] rejects, it rejects with
    [ValueError]. *)
Theorem parse_well_formed (u : string) :
  match ResourceInfo.parse u with
  | Ok r =>
      str_in (ResourceInfo.type r) RESOURCE_TYPES = true
      /\ isalnum (ResourceInfo.id r) = true
      /\ match ResourceInfo.owner_id r with
         | Some o =>
             o = EmptyString
             \/ (ResourceInfo.type r = "playlist" /\ isalnum o = true)
         | None => True
         end
  | Raise e => e = ValueError
  end.
Proof.
  destruct (ResourceInfo.parse u) as [r | e] eqn:H.
  - exact (parse_ok_fields u H).
  - exact (parse_raises u H).
Qed.

Lemma well_formed_cases (r : ResourceInfo.t) :
  ResourceInfo.well_formed r = true ->
  str_in (ResourceInfo.type r) RESOURCE_TYPES = true
  /\ isalnum (ResourceInfo.id r) = true
  /\ (ResourceInfo.owner_id r = None
      \/ exists o, ResourceInfo.owner_id r = Some o
                   /\ ResourceInfo.type r = "playlist" /\ isalnum o = true).
Proof.
  unfold ResourceInfo.well_formed. intro H.
  apply andb_prop in H. destruct H as [H Ho].
  apply andb_prop in H. destruct H as [Hty Hid].
  repeat split; try assumption.
  destruct (ResourceInfo.owner_id r) as [o |]; [| left; reflexivity].
  apply andb_prop in Ho. destruct Ho as [Hp Hal].
  apply String.eqb_eq in Hp. right. exists o. auto.
Qed.

Lemma from_url_two_part (ty i : string) :
  str_in ty RESOURCE_TYPES = true -> isalnum i = true ->
  ResourceInfo.from_url (format_url ty i None)
  = Ok (ResourceInfo.make ty i None).
Proof.
  intros Hty Hid. unfold ResourceInfo.from_url, format_url.
  cbn [String.concat].
  rewrite prefix_append. cbn [negb].
  change (OPEN_SPOTIFY_URL ++ "/" ++ ty ++ "/" ++ i)
    with ("https:" ++ String "/" (EmptyString ++ String "/"
            ("open.spotify.com" ++ String "/" (ty ++ String "/" i)))).
  rewrite split_app by reflexivity.
  rewrite split_app by reflexivity.
  rewrite split_app by reflexivity.
  rewrite split_app by (apply resource_type_no_slash, Hty).
  rewrite (split_without_sep "/" i (isalnum_no_slash i Hid)).
  cbn [skipn ResourceInfo._from_tokens]. apply init_two_part; assumption.
Qed.

Lemma from_url_legacy_playlist (owner i : string) :
  isalnum owner = true -> isalnum i = true ->
  ResourceInfo.from_url (format_url "playlist" i (Some owner))
  = Ok (ResourceInfo.make "playlist" i (Some owner)).
Proof.
  intros Ho Hid. unfold ResourceInfo.from_url, format_url, opt_truthy.
  rewrite (isalnum_nonempty owner Ho). cbn [negb String.concat].
  rewrite prefix_append. cbn [negb].
  change (OPEN_SPOTIFY_URL ++ "/" ++ "user" ++ "/" ++ owner ++ "/"
          ++ "playlist" ++ "/" ++ i)
    with ("https:" ++ String "/" (EmptyString ++ String "/"
            ("open.spotify.com" ++ String "/" ("user" ++ String "/"
               (owner ++ String "/" ("playlist" ++ String "/" i)))))).
  rewrite split_app by reflexivity.
  rewrite split_app by reflexivity.
  rewrite split_app by reflexivity.
  rewrite split_app by reflexivity.
  rewrite split_app by (apply isalnum_no_slash, Ho).
  rewrite split_app by reflexivity.
  rewrite (split_without_sep "/" i (isalnum_no_slash i Hid)).
  cbn [skipn ResourceInfo._from_tokens String.eqb Ascii.eqb Bool.eqb andb negb].
  apply init_legacy_playlist; assumption.
Qed.

Lemma uri_of_two_part (ty i : string) :
  ResourceInfo.uri (ResourceInfo.make ty i None) = "spotify:" ++ ty ++ ":" ++ i.
Proof. reflexivity. Qed.

Lemma uri_of_legacy (owner i : string) :
  isalnum owner = true ->
  ResourceInfo.uri (ResourceInfo.make "playlist" i (Some owner))
  = "spotify:user:" ++ owner ++ ":playlist:" ++ i.
Proof.
  intro Ho. unfold ResourceInfo.uri, format_uri, opt_truthy.
  cbn [ResourceInfo.type ResourceInfo.id ResourceInfo.owner_id].
  rewrite (isalnum_nonempty owner Ho). reflexivity.
Qed.

Lemma url_of_legacy (owner i : string) :
  isalnum owner = true ->
  ResourceInfo.url (ResourceInfo.make "playlist" i (Some owner))
  = "https://open.spotify.com/user/" ++ owner ++ "/playlist/" ++ i.
Proof.
  intro Ho. unfold ResourceInfo.url, format_url, opt_truthy.
  cbn [ResourceInfo.type ResourceInfo.id ResourceInfo.owner_id].
  rewrite (isalnum_nonempty owner Ho). reflexivity.
Qed.

Lemma printed_parses (r : ResourceInfo.t) :
  ResourceInfo.well_formed r = true ->
  ResourceInfo.from_uri (ResourceInfo.uri r) = Ok r
  /\ ResourceInfo.from_url (ResourceInfo.url r) = Ok r
  /\ ResourceInfo.parse (ResourceInfo.uri r) = Ok r
  /\ ResourceInfo.parse (ResourceInfo.url r) = Ok r.
Proof.
  intro H. destruct (well_formed_cases r H) as (Hty & Hid & Ho).
  destruct r as [ty i o]. cbn [ResourceInfo.type ResourceInfo.id
                                 ResourceInfo.owner_id] in *.
  destruct Ho as [Ho | (owner & Ho & Hp & Hal)]; subst.
  - assert (Euri : ResourceInfo.from_uri
                     (ResourceInfo.uri (ResourceInfo.make ty i None))
                   = Ok (ResourceInfo.make ty i None))
      by (rewrite uri_of_two_part; apply from_uri_two_part; assumption).
    assert (Eurl : ResourceInfo.from_url
                     (ResourceInfo.url (ResourceInfo.make ty i None))
                   = Ok (ResourceInfo.make ty i None))
      by (apply from_url_two_part; assumption).
    repeat split; assumption.
  - assert (Euri : ResourceInfo.from_uri
                     (ResourceInfo.uri (ResourceInfo.make "playlist" i (Some owner)))
                   = Ok (ResourceInfo.make "playlist" i (Some owner)))
      by (rewrite uri_of_legacy by assumption;
          apply from_uri_legacy_playlist; assumption).
    assert (Eurl : ResourceInfo.from_url
                     (ResourceInfo.url (ResourceInfo.make "playlist" i (Some owner)))
                   = Ok (ResourceInfo.make "playlist" i (Some owner)))
      by (apply from_url_legacy_playlist; assumption).
    repeat split; try assumption.
    + rewrite uri_of_legacy in * by assumption. exact Euri.
    + rewrite url_of_legacy in * by assumption. exact Eurl.
Qed.

(** X2. For every well-formed resource (with or without an owner),
    parsing what was printed returns the resource: [from_uri] of its
    [uri], [from_url] of its [url], and [parse] of either one. *)
Theorem print_then_parse (r : ResourceInfo.t) :
  ResourceInfo.well_formed r = true ->
  ResourceInfo.from_uri (ResourceInfo.uri r) = Ok r
  /\ ResourceInfo.from_url (ResourceInfo.url r) = Ok r
  /\ ResourceInfo.parse (ResourceInfo.uri r) = Ok r
  /\ ResourceInfo.parse (ResourceInfo.url r) = Ok r.
Proof. exact (printed_parses r). Qed.

Lemma print_then_parse_witness :
  ResourceInfo.from_uri
    (ResourceInfo.uri (ResourceInfo.make "playlist" "4Z8bvNgj0iTiBMmFakQMgN"
                         (Some "sbobyx")))
  = Ok (ResourceInfo.make "playlist" "4Z8bvNgj0iTiBMmFakQMgN" (Some "sbobyx"))
  /\ ResourceInfo.from_url
       (ResourceInfo.url (ResourceInfo.make "playlist" "4Z8bvNgj0iTiBMmFakQMgN"
                            (Some "sbobyx")))
     = Ok (ResourceInfo.make "playlist" "4Z8bvNgj0iTiBMmFakQMgN" (Some "sbobyx")).
Proof.
  destruct (@print_then_parse
              (ResourceInfo.make "playlist" "4Z8bvNgj0iTiBMmFakQMgN"
                 (Some "sbobyx")) eq_refl) as (H1 & H2 & _).
  split; assumption.
Defined.

Lemma from_tokens_shape (tokens : list string) (u : string) (r : ResourceInfo.t) :
  ResourceInfo._from_tokens tokens u = Ok r ->
  ResourceInfo.owner_id r <> Some EmptyString ->
  ResourceInfo.well_formed r = true
  /\ ResourceInfo.uri r = String.concat ":" ("spotify" :: tokens).
Proof.
  intros H Hne.
  destruct (from_tokens_inv _ _ H) as [(ty & i & Et & Hi) | (o & ty & i & Et & Hi)];
    destruct (resource_init_inv _ _ _ Hi) as (Er & Hty & Hid & Ho); subst r tokens.
  - split; [| reflexivity].
    unfold ResourceInfo.well_formed.
    cbn [ResourceInfo.type ResourceInfo.id ResourceInfo.owner_id].
    rewrite Hty, Hid. reflexivity.
  - cbn [ResourceInfo.owner_id] in Hne.
    assert (Hnz : String.eqb o EmptyString = false).
    { destruct (String.eqb o EmptyString) eqn:E; [| reflexivity].
      apply String.eqb_eq in E. subst o. congruence. }
    destruct Ho as (Hp & s & Es & Hs).
    { unfold opt_truthy. rewrite Hnz. reflexivity. }
    inversion Es. subst s ty. split.
    + unfold ResourceInfo.well_formed.
      cbn [ResourceInfo.type ResourceInfo.id ResourceInfo.owner_id].
      rewrite Hty, Hid, Hs. reflexivity.
    + rewrite uri_of_legacy by assumption. reflexivity.
Qed.

(** X3. Every URI that [from_uri] accepts, giving a resource whose owner
    is not the empty string, is the canonical URI of that resource, with
    or without the leading ["spotify:"]; and the resource is well
    formed. *)
Theorem accepted_uri_is_canonical (u : string) (r : ResourceInfo.t) :
  ResourceInfo.from_uri u = Ok r ->
  ResourceInfo.owner_id r <> Some EmptyString ->
  ResourceInfo.well_formed r = true
  /\ (u = ResourceInfo.uri r \/ "spotify:" ++ u = ResourceInfo.uri r).
Proof.
  intros H Hne. rewrite from_uri_tokens in H.
  destruct (from_tokens_shape _ _ H Hne) as (Hwf & Huri).
  split; [exact Hwf |]. rewrite Huri.
  pose proof (concat_split ":" u) as Hu.
  unfold uri_tokens in *.
  destruct (split ":" u) as [| t0 rest] eqn:Hs.
  - exfalso. exact (split_nonempty ":" u Hs).
  - destruct (String.eqb t0 "spotify") eqn:E.
    + apply String.eqb_eq in E. subst t0. left. symmetry. exact Hu.
    + right. rewrite <- Hu at 1.
      destruct rest; reflexivity.
Qed.

Lemma accepted_uri_is_canonical_witness :
  ResourceInfo.well_formed (ResourceInfo.make "track" "1i6N76fftMZhijOzFQ5ZtL" None)
  = true
  /\ ("track:1i6N76fftMZhijOzFQ5ZtL"
      = ResourceInfo.uri (ResourceInfo.make "track" "1i6N76fftMZhijOzFQ5ZtL" None)
      \/ "spotify:" ++ "track:1i6N76fftMZhijOzFQ5ZtL"
         = ResourceInfo.uri (ResourceInfo.make "track" "1i6N76fftMZhijOzFQ5ZtL" None)).
Proof.
  apply (@accepted_uri_is_canonical "track:1i6N76fftMZhijOzFQ5ZtL"
           (ResourceInfo.make "track" "1i6N76fftMZhijOzFQ5ZtL" None)).
  - reflexivity.
  - discriminate.
Defined.

(** X4. [from_url] checks the host only as a prefix of the URL: whatever
    follows ["https://open.spotify.com"] up to the next slash is
    ignored, so a URL of another host that starts with these characters
    is accepted like a Spotify URL. *)
Theorem from_url_ignores_host_suffix (x ty i : string) :
  all_chars (not_char "/") x = true ->
  str_in ty RESOURCE_TYPES = true ->
  isalnum i = true ->
  ResourceInfo.from_url ("https://open.spotify.com" ++ x ++ "/" ++ ty ++ "/" ++ i)
  = Ok (ResourceInfo.make ty i None).
Proof.
  intros Hx Hty Hid. unfold ResourceInfo.from_url.
  change ("https://open.spotify.com" ++ x ++ "/" ++ ty ++ "/" ++ i)
    with (OPEN_SPOTIFY_URL ++ (x ++ "/" ++ ty ++ "/" ++ i)).
  rewrite prefix_append. cbn [negb].
  change (OPEN_SPOTIFY_URL ++ (x ++ "/" ++ ty ++ "/" ++ i))
    with ("https:" ++ String "/" (EmptyString ++ String "/"
            ("open.spotify.com" ++ (x ++ String "/" (ty ++ String "/" i))))).
  rewrite split_app by reflexivity.
  rewrite split_app by reflexivity.
  assert (E : "open.spotify.com" ++ (x ++ String "/" (ty ++ String "/" i))
              = ("open.spotify.com" ++ x) ++ String "/" (ty ++ String "/" i)).
  { reflexivity. }
  rewrite E.
  rewrite split_app.
  - rewrite split_app by (apply resource_type_no_slash, Hty).
    rewrite (split_without_sep "/" i (isalnum_no_slash i Hid)).
    cbn [skipn ResourceInfo._from_tokens]. apply init_two_part; assumption.
  - cbn. exact Hx.
Qed.

Lemma from_url_ignores_host_suffix_witness :
  ResourceInfo.from_url
    ("https://open.spotify.com" ++ ".example.org" ++ "/" ++ "track" ++ "/"
     ++ "1i6N76fftMZhijOzFQ5ZtL")
  = Ok (ResourceInfo.make "track" "1i6N76fftMZhijOzFQ5ZtL" None).
Proof.
  apply (@from_url_ignores_host_suffix ".example.org" "track"
           "1i6N76fftMZhijOzFQ5ZtL"); reflexivity.
Defined.

(** X5. An identifier that is itself alphanumeric is returned as it
    is, whatever type is expected (no check is made); and whatever
    [get_id] returns, on any input, is alphanumeric. *)
Theorem get_id_returns_alnum (identifier : string)
  (expected_type : option string) :
  (isalnum identifier = true ->
   get_id identifier expected_type = Returns identifier)
  /\ (forall i, get_id identifier expected_type = Returns i ->
                isalnum i = true).
Proof.
  unfold get_id. destruct (isalnum identifier) eqn:Ha.
  - split; [reflexivity |]. intros i H. inversion H. subst i. exact Ha.
  - split; [discriminate |]. intro i.
    destruct (ResourceInfo.parse identifier) as [r |] eqn:Hp; [| discriminate].
    destruct (parse_ok_fields identifier Hp) as (_ & Hid & _).
    assert (Hret : Returns (ResourceInfo.id r) = Returns i -> isalnum i = true).
    { intro H. inversion H. subst i. exact Hid. }
    destruct expected_type as [e |]; [| exact Hret].
    destruct (opt_truthy (Some e) && negb (String.eqb (ResourceInfo.type r) e));
      [| exact Hret].
    destruct (negb (str_in e RESOURCE_TYPES)); discriminate.
Qed.

Lemma get_id_returns_alnum_witness :
  get_id "4Z8bvNgj0iTiBMmFakQMgN" (Some "no-such-type")
  = Returns "4Z8bvNgj0iTiBMmFakQMgN"
  /\ isalnum "4Z8bvNgj0iTiBMmFakQMgN" = true.
Proof.
  pose proof (@get_id_returns_alnum "4Z8bvNgj0iTiBMmFakQMgN"
                (Some "no-such-type")) as H.
  split.
  - apply (proj1 H). reflexivity.
  - apply (proj2 H "4Z8bvNgj0iTiBMmFakQMgN"). apply (proj1 H). reflexivity.
Defined.

Lemma printed_not_alnum (r : ResourceInfo.t) :
  ResourceInfo.well_formed r = true ->
  isalnum (ResourceInfo.uri r) = false /\ isalnum (ResourceInfo.url r) = false.
Proof.
  intro H. destruct (well_formed_cases r H) as (_ & _ & Ho).
  destruct r as [ty i o]. cbn [ResourceInfo.type ResourceInfo.id
                                 ResourceInfo.owner_id] in *.
  destruct Ho as [Ho | (owner & Ho & Hp & Hal)]; subst.
  - split; reflexivity.
  - rewrite uri_of_legacy, url_of_legacy by assumption. split; reflexivity.
Qed.

(** X6. Given the URI or the URL of a well-formed resource and a
    non-empty expected type, [get_id] returns the id when the type is
    the expected one, raises [ResourceTypeMismatch] carrying both types
    when the expected type is another resource type, and raises
    [ValueError] when the expected type is no resource type at all.  With
    no expected type it returns the id. *)
Theorem get_id_checks_type (r : ResourceInfo.t) (e : string) :
  ResourceInfo.well_formed r = true ->
  e <> EmptyString ->
  let expected :=
    if String.eqb (ResourceInfo.type r) e then Returns (ResourceInfo.id r)
    else if str_in e RESOURCE_TYPES
         then Raises (ResourceTypeMismatch e (ResourceInfo.type r))
         else Raises (Builtin ValueError) in
  get_id (ResourceInfo.uri r) (Some e) = expected
  /\ get_id (ResourceInfo.url r) (Some e) = expected
  /\ get_id (ResourceInfo.uri r) None = Returns (ResourceInfo.id r)
  /\ get_id (ResourceInfo.url r) None = Returns (ResourceInfo.id r).
Proof.
  intros H He expected.
  destruct (printed_parses r H) as (_ & _ & Puri & Purl).
  destruct (printed_not_alnum r H) as (Auri & Aurl).
  assert (Hnz : opt_truthy (Some e) = true).
  { unfold opt_truthy. destruct (String.eqb e EmptyString) eqn:E; [| reflexivity].
    apply String.eqb_eq in E. congruence. }
  unfold get_id. rewrite Auri, Aurl, Puri, Purl, Hnz. subst expected.
  destruct (String.eqb (ResourceInfo.type r) e);
    destruct (str_in e RESOURCE_TYPES); repeat split.
Qed.

Lemma get_id_checks_type_witness :
  get_id "spotify:playlist:1i6N76fftMZhijOzFQ5ZtL" (Some "track")
  = Raises (ResourceTypeMismatch "track" "playlist").
Proof.
  exact (proj1 (@get_id_checks_type
                  (ResourceInfo.make "playlist" "1i6N76fftMZhijOzFQ5ZtL" None)
                  "track" eq_refl
                  (fun H : "track" = EmptyString =>
                     eq_ind "track"
                       (fun s => match s with EmptyString => False | _ => True end)
                       I EmptyString H))).
Defined.

(* ------------------------------------------------------------------ *)
(** ** Scope normalization and tokens, continued *)

(** X7. A normalized scope is in ascending order and holds exactly the
    scope strings it was given, each as often as it was given
    (duplicates are kept); every falsy input and every non-collection
    number that is accepted gives the empty tuple. *)
Theorem normalize_scope_sorts (v : PyVal) (t : list string) :
  normalize_scope v = Ok t ->
  StronglySorted str_le t
  /\ match v with
     | PStr s => Permutation (split_whitespace s) t
     | PList l | PTuple l => Permutation l t
     | _ => t = []
     end.
Proof.
  unfold normalize_scope. destruct (negb (truthy v)) eqn:Hf.
  - intro H. inversion H. subst t. split; [constructor |].
    destruct v as [| b | z | q | s | l | l]; try reflexivity.
    + destruct s; [constructor | discriminate].
    + destruct l; [constructor | discriminate].
    + destruct l; [constructor | discriminate].
  - destruct v as [| b | z | q | s | l | l]; try discriminate;
      intro H; inversion H; subst t;
      (split; [apply sorted_strongly | apply sorted_perm]).
Qed.

Lemma normalize_scope_sorts_witness :
  StronglySorted str_le ["a"; "a"; "b"]
  /\ Permutation (split_whitespace "b a  a") ["a"; "a"; "b"].
Proof.
  apply (@normalize_scope_sorts (PStr "b a  a") ["a"; "a"; "b"]).
  reflexivity.
Defined.

(** X8. Every token the constructor returns has [expires_at] set (it is
    never [None]) and a [scope] in ascending order. *)
Theorem constructed_token_invariants (now : float) (kwargs : dict)
  (t : OAuth2Token.t) :
  OAuth2Token.init now kwargs = Ok t ->
  OAuth2Token.expires_at t <> PNone
  /\ StronglySorted str_le (OAuth2Token.scope t).
Proof.
  intro H. split.
  - exact (init_expires_at_set _ _ H).
  - rewrite <- (init_scope_sorted _ _ H). apply sorted_strongly.
Qed.

Lemma constructed_token_invariants_witness :
  exists t,
    OAuth2Token.init (float_of_Z 1000)
      [("access_token", PStr "BQDx"); ("expires_in", PInt 3600);
       ("scope", PStr "user-read-email playlist-read-private")] = Ok t
    /\ OAuth2Token.expires_at t <> PNone
    /\ StronglySorted str_le (OAuth2Token.scope t).
Proof.
  eexists. split; [reflexivity |].
  apply (@constructed_token_invariants (float_of_Z 1000)
           [("access_token", PStr "BQDx"); ("expires_in", PInt 3600);
            ("scope", PStr "user-read-email playlist-read-private")]).
  reflexivity.
Defined.

(** The order of floats, read off [SFcompare]. *)
Lemma float_le_trans (x y z : float) :
  float_le x y = true -> float_le y z = true -> float_le x z = true.
Proof.
  unfold float_le, SFleb, SFcompare.
  destruct x as [sx | sx | | sx mx ex]; destruct y as [sy | sy | | sy my ey];
    destruct z as [sz | sz | | sz mz ez];
    try destruct sx; try destruct sy; try destruct sz;
    try discriminate; try reflexivity.
  - rewrite !Pos.compare_cont_spec. cbn [Pos.switch_Eq].
    destruct (Z.compare_spec ex ey); destruct (Z.compare_spec ey ez);
      destruct (Z.compare_spec ex ez);
      destruct (Pos.compare_spec mx my); destruct (Pos.compare_spec my mz);
      destruct (Pos.compare_spec mx mz); cbn; intros; try reflexivity;
      try discriminate; lia.
  - rewrite !Pos.compare_cont_spec. cbn [Pos.switch_Eq].
    destruct (Z.compare_spec ex ey); destruct (Z.compare_spec ey ez);
      destruct (Z.compare_spec ex ez);
      destruct (Pos.compare_spec mx my); destruct (Pos.compare_spec my mz);
      destruct (Pos.compare_spec mx mz); cbn; intros; try reflexivity;
      try discriminate; lia.
Qed.

(** X9. Expiry is monotone in time: when the difference
    [expires_at - margin] is a float (as it is whenever [expires_at]
    holds a float, its declared type), a token that [is_expired] reports
    expired at one clock reading is reported expired, with the same
    margin, at every later one. *)
Theorem is_expired_monotone (now now' : float) (t : OAuth2Token.t)
  (margin : PyVal) (ea : float) :
  OAuth2Token.expires_at t = PFloat ea ->
  OAuth2Token.is_expired now t margin = Ok true ->
  float_le now now' = true ->
  OAuth2Token.is_expired now' t margin = Ok true.
Proof.
  unfold OAuth2Token.is_expired. intros Hea H Hn. rewrite Hea in *.
  cbn [py_num] in *.
  destruct (py_num margin) as [m |]; [| discriminate].
  unfold py_sub in *. cbn [as_float rbind] in *.
  destruct (as_float m) as [y | ex]; [| discriminate].
  cbn [rbind float_ge_num] in *. injection H as Hb. f_equal.
  exact (float_le_trans _ _ _ Hb Hn).
Qed.

Lemma is_expired_monotone_witness :
  OAuth2Token.is_expired (float_of_Z 6000) Sessions.example_old_token
    OAuth2Token.default_margin = Ok true.
Proof.
  apply (@is_expired_monotone (float_of_Z 5000) (float_of_Z 6000)
           Sessions.example_old_token OAuth2Token.default_margin
           (float_of_Z 4598)); reflexivity.
Defined.

(** X10. An [int] given for [expires_in] that is too large for a float
    makes the constructor raise [OverflowError] when it has to compute
    [expires_at] (the map is otherwise acceptable and holds no
    [expires_at]); with an explicit [expires_at] that is not [None] the
    same map constructs a token, since no arithmetic is done. *)
Theorem huge_expires_in_overflows (now : float) (kwargs : dict) (n : Z)
  (a sc : PyVal) (sc' : list string) :
  forallb (fun k => str_in k OAuth2Token.init_params) (keys kwargs) = true ->
  dict_get "access_token" kwargs = Some a ->
  dict_get "expires_in" kwargs = Some (PInt n) ->
  dict_get "scope" kwargs = Some sc ->
  normalize_scope sc = Ok sc' ->
  float_of_int n = Raise OverflowError ->
  match get_default "expires_at" PNone kwargs with
  | PNone => OAuth2Token.init now kwargs = Raise OverflowError
  | ea =>
      OAuth2Token.init now kwargs
      = Ok (OAuth2Token.make a (PInt n) sc'
              (get_default "state" PNone kwargs)
              (get_default "token_type" (PStr "Bearer") kwargs)
              ea
              (get_default "refresh_token" PNone kwargs))
  end.
Proof.
  intros Hk Ha He Hs Hn Ho. unfold OAuth2Token.init.
  rewrite Hk, Ha, He, Hs, Hn. cbn [negb rbind].
  unfold OAuth2Token.__attrs_post_init__.
  cbn [OAuth2Token.expires_at OAuth2Token.expires_in py_num as_float].
  destruct (get_default "expires_at" PNone kwargs); try reflexivity.
  rewrite Ho. reflexivity.
Qed.

Lemma huge_expires_in_overflows_witness :
  OAuth2Token.init (float_of_Z 1000)
    [("access_token", PStr "BQDx"); ("expires_in", PInt (2 ^ 1024));
     ("scope", PStr "user-read-email")]
  = Raise OverflowError.
Proof.
  exact (@huge_expires_in_overflows (float_of_Z 1000)
           [("access_token", PStr "BQDx"); ("expires_in", PInt (2 ^ 1024));
            ("scope", PStr "user-read-email")] (2 ^ 1024)
           (PStr "BQDx") (PStr "user-read-email") ["user-read-email"]
           eq_refl eq_refl eq_refl eq_refl eq_refl eq_refl).
Defined.

Lemma forallb_false_of_in (p : string -> bool) (l : list string) (k : string) :
  In k l -> p k = false -> forallb p l = false.
Proof.
  induction l as [| x r IH]; intros Hin Hp; [destruct Hin |].
  cbn [forallb]. destruct Hin as [E | Hin].
  - subst x. rewrite Hp. reflexivity.
  - rewrite (IH Hin Hp). apply andb_false_r.
Qed.

(** X11. [from_dict] (without [ignore_unknown_keys]) raises [TypeError]
    on every map that holds a key other than the seven attribute names,
    and on every map that lacks [access_token], [expires_in] or
    [scope]. *)
Theorem from_dict_rejects (now : float) (data : dict) :
  (exists k, In k (keys data) /\ str_in k OAuth2Token.init_params = false)
  \/ dict_get "access_token" data = None
  \/ dict_get "expires_in" data = None
  \/ dict_get "scope" data = None ->
  OAuth2Token.from_dict now data false = Raise TypeError.
Proof.
  intro H. unfold OAuth2Token.from_dict. cbn [rbind].
  unfold OAuth2Token.init.
  destruct (forallb (fun k => str_in k OAuth2Token.init_params) (keys data))
    eqn:Hk; [| reflexivity].
  cbn [negb].
  destruct H as [(k & Hin & Hp) | [H | [H | H]]].
  - rewrite (forallb_false_of_in _ _ k Hin Hp) in Hk. discriminate.
  - rewrite H. reflexivity.
  - rewrite H. destruct (dict_get "access_token" data); reflexivity.
  - rewrite H. destruct (dict_get "access_token" data);
      destruct (dict_get "expires_in" data); reflexivity.
Qed.

Lemma from_dict_rejects_witness :
  OAuth2Token.from_dict (float_of_Z 1000)
    [("access_token", PStr "BQDx"); ("expires_in", PInt 3600);
     ("scope", PStr "user-read-email"); ("country", PStr "IT")] false
  = Raise TypeError.
Proof.
  apply from_dict_rejects. left. exists "country". split.
  - right. right. right. left. reflexivity.
  - reflexivity.
Defined.

(* ------------------------------------------------------------------ *)
(** ** Sessions, continued *)

Section MoreSessionProperties.

Import Sessions.

Variables W Request Response : Type.
Context {X : External W Request Response}.

Local Abbreviation Store := (Sessions.Store W).
Local Abbreviation M := (Sessions.M W Request).
Local Abbreviation Action := (Sessions.Action Request).
Local Abbreviation Listeners := (Sessions.Listeners W).
Local Abbreviation Callback := (Sessions.Callback W).

Local Open Scope list_scope.

Lemma run_listeners_app (a b : list Callback) (e : SessionEvent) (s : Store) :
  run_listeners (Request := Request) (a ++ b) e s
  = match run_listeners (Request := Request) a e s with
    | (Ok _, s1, _) => run_listeners b e s1
    | (Raise ex, s1, _) => (Raise ex, s1, [])
    end.
Proof.
  revert s. induction a as [| cb rest IH]; intro s.
  - reflexivity.
  - cbn [app run_listeners]. unfold bind, call_listener.
    destruct (cb e s) as [[u | ex] s1]; [| reflexivity].
    rewrite IH.
    destruct (run_listeners_shape Request rest e s1)
      as (r & s2 & E). rewrite E.
    destruct r as [u' | ex].
    + destruct (run_listeners_shape Request b e s2)
        as (r' & s3 & E'). rewrite E'. reflexivity.
    + reflexivity.
Qed.

(** X12. Listeners are called in the order of the list, each on the
    session as the one before left it: once the listeners of a prefix
    have returned, the next listener is called on the session they
    left; if it returns, the dispatch goes on with the rest from the
    session it left, and if it raises, the dispatch ends there with its
    exception and the listeners after it are not called.  When a
    listener of the prefix raised, that exception is the result
    whatever follows. *)
Theorem listeners_run_in_order (a b : list Callback) (cb : Callback)
  (e : SessionEvent) (s s1 : Store) (r1 : Result unit) :
  run_listeners (Request := Request) a e s = (r1, s1, []) ->
  run_listeners (Request := Request) (a ++ cb :: b) e s
  = match r1 with
    | Ok _ =>
        match cb e s1 with
        | (Ok _, s2) => run_listeners b e s2
        | (Raise ex, s2) => (Raise ex, s2, [])
        end
    | Raise ex => (Raise ex, s1, [])
    end.
Proof.
  intro H. rewrite run_listeners_app, H. destruct r1 as [u | ex]; [| reflexivity].
  cbn [run_listeners]. unfold bind, call_listener.
  destruct (cb e s1) as [[u' | ex] s2]; [| reflexivity].
  destruct (run_listeners_shape Request b e s2) as (r' & s3 & E').
  rewrite E'. reflexivity.
Qed.

(** X13. [add_listener] accepts exactly the two event names and raises
    [KeyError] for any other; the listener it adds is called for events
    of that name after all the listeners registered before, on the
    session they left and only if none of them raised, and it is not
    called for the other event. *)
Theorem add_listener_appends (name : string) (cb : Callback) (L : Listeners) :
  match add_listener name cb L with
  | Ok L' =>
      (name = "token_updated" \/ name = "token_expired")
      /\ forall (e : SessionEvent) (s : Store),
           _notify_listeners (Request := Request) L' e s
           = if String.eqb name (event_name e)
             then match _notify_listeners (Request := Request) L e s with
                  | (Ok _, s1, tr) => match cb e s1 with (r, s2) => (r, s2, tr) end
                  | (Raise ex, s1, tr) => (Raise ex, s1, tr)
                  end
             else _notify_listeners L e s
  | Raise ex =>
      ex = ExternalError "KeyError"
      /\ name <> "token_updated" /\ name <> "token_expired"
  end.
Proof.
  unfold add_listener.
  destruct (String.eqb name "token_updated") eqn:Eu.
  - apply String.eqb_eq in Eu. subst name.
    split; [left; reflexivity |]. intros e s.
    destruct e as [t wh | old new]; cbn [event_name String.eqb Ascii.eqb Bool.eqb andb].
    + rewrite !notify_run. reflexivity.
    + rewrite !notify_run. cbn [listeners_for token_updated].
      rewrite run_listeners_app.
      destruct (run_listeners_shape Request (token_updated L)
                  (TokenUpdatedEvent old new) s) as (r & s1 & E).
      rewrite E. destruct r as [u | ex]; [| reflexivity].
      cbn [run_listeners]. unfold bind, call_listener, ret.
      destruct (cb (TokenUpdatedEvent old new) s1) as [[[] | ex] s2]; reflexivity.
  - destruct (String.eqb name "token_expired") eqn:Ee.
    + apply String.eqb_eq in Ee. subst name.
      split; [right; reflexivity |]. intros e s.
      destruct e as [t wh | old new]; cbn [event_name String.eqb Ascii.eqb Bool.eqb andb].
      * rewrite !notify_run. cbn [listeners_for token_expired].
        rewrite run_listeners_app.
        destruct (run_listeners_shape Request (token_expired L)
                    (TokenExpiredEvent t wh) s) as (r & s1 & E).
        rewrite E. destruct r as [u | ex]; [| reflexivity].
        cbn [run_listeners]. unfold bind, call_listener, ret.
        destruct (cb (TokenExpiredEvent t wh) s1) as [[[] | ex] s2]; reflexivity.
      * rewrite !notify_run. reflexivity.
    + apply String.eqb_neq in Eu. apply String.eqb_neq in Ee.
      split; [reflexivity |]. split; assumption.
Qed.

Lemma token_not_expired_run (s : Store) :
  (_token s = None
   \/ exists t, _token s = Some t
                /\ OAuth2Token.is_expired (time_time (world s)) t
                     OAuth2Token.default_margin = Ok false) ->
  token_is_expired s = (Ok None, s, []).
Proof.
  unfold token_is_expired, bind, token, gets, lift_result, ret.
  intros [Hn | (t & Ht & He)].
  - rewrite Hn. reflexivity.
  - rewrite Ht. cbn. rewrite He. reflexivity.
Qed.

(** X14. When the session holds no token, or a token that
    [is_expired()] does not report expired, [request] of every flow
    fires no event and takes no step but the outbound call, whose
    result it returns. *)
Theorem request_without_expiry (f : Flow) (L : Listeners) (req : Request)
  (wh : bool) (s : Store) :
  (_token s = None
   \/ exists t, _token s = Some t
                /\ OAuth2Token.is_expired (time_time (world s)) t
                     OAuth2Token.default_margin = Ok false) ->
  request f L req wh s
  = match session_request req wh (world s) with
    | (r, w) => (r, with_world w s, [Outbound req wh (_token s)])
    end.
Proof.
  intro H. pose proof (token_not_expired_run s H) as E.
  assert (Hb : BaseOAuth2Session_request L req wh s
               = match session_request req wh (world s) with
                 | (r, w) => (r, with_world w s, [Outbound req wh (_token s)])
                 end).
  { unfold BaseOAuth2Session_request.
    erewrite bind_ok; [| exact E]. cbn [app].
    unfold bind at 1. unfold ret at 1. rewrite outbound_run.
    destruct (session_request req wh (world s)). reflexivity. }
  assert (Hr : forall rt, RefreshableOAuth2Session_request rt L req wh s
               = match session_request req wh (world s) with
                 | (r, w) => (r, with_world w s, [Outbound req wh (_token s)])
                 end).
  { intro rt. unfold RefreshableOAuth2Session_request.
    erewrite bind_ok; [| exact E]. cbn [app].
    unfold bind at 1. unfold ret at 1. rewrite outbound_run.
    destruct (session_request req wh (world s)). reflexivity. }
  destruct f; unfold request; [apply Hr | exact Hb | apply Hr].
Qed.

(** X15. In a refreshable flow, when the token is expired but the caller
    withholds the token or auto-refresh is disabled once the dispatch
    has returned, [request] fires the token-expired event, does not
    refresh, and makes the outbound call with the token the session
    then holds. *)
Theorem refreshable_request_without_refresh (f : Flow) (L : Listeners)
  (req : Request) (wh : bool) (s s1 : Store) (t : OAuth2Token.t) :
  f <> IMPLICIT_GRANT ->
  _token s = Some t ->
  OAuth2Token.is_expired (time_time (world s)) t OAuth2Token.default_margin
  = Ok true ->
  run_listeners (token_expired L) (TokenExpiredEvent t wh) s
  = (Ok tt, s1, ([] : list Action)) ->
  wh = true \/ _auto_refresh s1 = false ->
  request f L req wh s
  = match session_request req wh (world s1) with
    | (r, w) =>
        (r, with_world w s1,
         [Notified (TokenExpiredEvent t wh); Outbound req wh (_token s1)])
    end.
Proof.
  intros Hf Ht He Hd Hoff.
  assert (Hreq : request f L req wh s
                 = RefreshableOAuth2Session_request (_refresh_token_of f)
                     L req wh s)
    by (destruct f; [reflexivity | contradiction | reflexivity]).
  rewrite Hreq. unfold RefreshableOAuth2Session_request.
  erewrite bind_ok; [| exact (token_is_expired_run s Ht He)].
  cbn [app]. unfold bind at 1. unfold bind at 1.
  rewrite notify_run. cbn [listeners_for]. rewrite Hd.
  unfold bind at 1. unfold gets at 1.
  assert (Hc : _auto_refresh s1 && negb wh = false).
  { destruct Hoff as [Hw | Ha]; [subst wh; apply andb_false_r | rewrite Ha; reflexivity]. }
  rewrite Hc. unfold ret at 1. rewrite outbound_run.
  destruct (session_request req wh (world s1)). reflexivity.
Qed.

Lemma store_token_without_access_token (d : dict) (s s1 : Store)
  (r : Result unit) (tr : list Action) :
  dict_has "access_token" d = false ->
  store_token (Dict d) s = (r, s1, tr) ->
  exists e,
    r = Raise e /\ tr = [] /\ _token s1 = _token s
    /\ (e = TypeError
        \/ (dict_has "scope" d = false
            /\ fst (session_set_token d (world s)) = Raise e)).
Proof.
  intros Ha E. unfold dict_has in Ha.
  destruct (dict_get "access_token" d) as [a |] eqn:Hget; [discriminate |].
  assert (Hinit : forall now kw,
             dict_get "access_token" kw = None ->
             OAuth2Token.init now kw = Raise TypeError).
  { intros now kw Hn. unfold OAuth2Token.init.
    destruct (negb (forallb _ (keys kw))); [reflexivity |].
    rewrite Hn. reflexivity. }
  unfold store_token in E.
  destruct (dict_has "scope" d) eqn:Hsc; cbn [negb] in E.
  - unfold bind at 1 in E. unfold new_token at 1 in E.
    unfold bind at 1 in E. unfold gets at 1, lift_result at 1 in E.
    rewrite (Hinit _ d Hget) in E. injection E as <- <- <-.
    exists TypeError. repeat split. left. reflexivity.
  - unfold bind at 1 in E. rewrite assign_session_token_run in E.
    destruct (session_set_token d (world s)) as [[[] | ex] w] eqn:Hset.
    + unfold bind, modify, scope, token, gets,
        new_token, lift_result, assign_token, ret, emit in E; cbn in E.
      destruct (_token s) as [old |] eqn:Hold; cbn in E.
      * rewrite Hinit in E by (cbn; exact Hget). injection E as <- <- <-.
        exists TypeError. repeat split; try (left; reflexivity).
        cbn. exact Hold.
      * destruct (normalize_scope _) as [sc | ex] eqn:Hn; cbn in E.
        -- rewrite Hinit in E by (cbn; exact Hget). injection E as <- <- <-.
           exists TypeError. repeat split; try (left; reflexivity).
           cbn. exact Hold.
        -- apply normalize_scope_raises in Hn. subst ex.
           injection E as <- <- <-.
           exists TypeError. repeat split; try (left; reflexivity).
           cbn. exact Hold.
    + injection E as <- <- <-. exists ex. repeat split. right.
      split; reflexivity.
Qed.

(** X16. [set_token] has three outcomes.  It raises before the
    session's token is assigned, the token being what it was (in the
    branch of a map without [scope] the wrapped session has been handed
    the map by then); or it assigns one token and fires one
    token-updated notification; or it assigns one token and raises
    without notifying, which is what happens to a [Token] argument
    whose map the setter of the wrapped session rejects.  Anything that
    is neither a map nor a token raises [TypeError]; every map without
    [access_token] is rejected before the assignment, with [TypeError]
    unless the wrapped session itself raised on it. *)
Theorem set_token_outcomes (L : Listeners) (tok : TokenType) (s : Store) :
  ((exists e s', set_token L tok s = (Raise e, s', [])
                 /\ _token s' = _token s)
   \/ (exists new r s',
         set_token L tok s
         = (r, s',
            [Installed new; Notified (TokenUpdatedEvent (_token s) (Some new))]))
   \/ (exists new e s', set_token L tok s = (Raise e, s', [Installed new])
                        /\ _token s' = Some new))
  /\ match tok with
     | Other _ => set_token L tok s = (Raise TypeError, s, [])
     | Dict d =>
         if dict_has "access_token" d then True
         else exists e s',
                set_token L tok s = (Raise e, s', [])
                /\ _token s' = _token s
                /\ (e = TypeError
                    \/ (dict_has "scope" d = false
                        /\ fst (session_set_token d (world s)) = Raise e))
     | Token t =>
         forall e,
           fst (session_set_token (dict_del "scope" (OAuth2Token.to_dict t))
                  (world s)) = Raise e ->
           set_token L tok s
           = (Raise e,
              with_world
                (snd (session_set_token
                        (dict_del "scope" (OAuth2Token.to_dict t)) (world s)))
                (with_token (Some t) s),
              [Installed t])
     end.
Proof.
  split.
  - rewrite set_token_run.
    destruct (store_token_cases tok s)
      as [(e & s' & E & Ht) | [(new & s' & E & Hnew) | (new & e & s' & E & Hnew)]];
      rewrite E.
    + left. exists e, s'. split; [reflexivity | exact Ht].
    + right. left. rewrite Hnew.
      destruct (run_listeners_shape Request (token_updated L)
                  (TokenUpdatedEvent (_token s) (Some new)) s') as (r & s2 & Er).
      rewrite Er. exists new, r, s2. reflexivity.
    + right. right. exists new, e, s'. split; [reflexivity | exact Hnew].
  - destruct tok as [d | t | v].
    + destruct (dict_has "access_token" d) eqn:Ha; [exact I |].
      rewrite set_token_run.
      destruct (store_token (Dict d) s) as [[r s1] tr] eqn:E.
      destruct (store_token_without_access_token d s Ha E)
        as (e & Hr & Htr & Ht & He).
      subst r tr. exists e, s1. repeat split; assumption.
    + intros e He. rewrite set_token_run, store_token_Token.
      destruct (session_set_token _ _) as [r w]. cbn in He. subst r.
      reflexivity.
    + reflexivity.
Qed.

Lemma init_scope_of (now : float) (kwargs : dict) (t : OAuth2Token.t) (sc : PyVal) :
  OAuth2Token.init now kwargs = Ok t ->
  dict_get "scope" kwargs = Some sc ->
  normalize_scope sc = Ok (OAuth2Token.scope t).
Proof.
  intros H Hs. apply init_inv in H.
  destruct H as (a & e & sc0 & sc' & _ & _ & Hs0 & Hn & H).
  rewrite Hs in Hs0. inversion Hs0. subst sc0. rewrite Hn. f_equal.
  unfold OAuth2Token.__attrs_post_init__ in H.
  cbn [OAuth2Token.expires_at OAuth2Token.expires_in] in H.
  destruct (get_default "expires_at" PNone kwargs);
    try (inversion H; reflexivity).
  destruct (py_num e) as [x |]; [| discriminate].
  destruct (as_float x); inversion H. reflexivity.
Qed.

(** X17. A token map without a [scope] entry gets its scope from the
    session: the token [set_token] installs has the (sorted) scope of
    the token the session held, or, when it held none, the normalized
    scope the wrapped session was configured with. *)
Theorem token_without_scope_inherits (L : Listeners) (d : dict) (s s' : Store)
  (r : Result unit) (tr : list Action) (new : OAuth2Token.t) :
  dict_has "scope" d = false ->
  set_token L (Dict d) s = (r, s', tr) ->
  In (Installed new) tr ->
  match _token s with
  | Some old => OAuth2Token.scope new = sorted (OAuth2Token.scope old)
  | None =>
      normalize_scope
        (session_scope (snd (session_set_token d (world s))))
      = Ok (OAuth2Token.scope new)
  end.
Proof.
  intros Hd Hs Hin. rewrite set_token_run in Hs.
  assert (Hst : exists r1 s1, store_token (Dict d) s = (r1, s1, [Installed new])).
  { destruct (store_token_cases (Dict d) s)
      as [(e1 & s1 & E1 & _)
         | [(new' & s1 & E1 & Hnew) | (new' & e1 & s1 & E1 & Hnew)]];
      rewrite E1 in Hs.
    - inversion Hs. subst. destruct Hin.
    - destruct (run_listeners _ _ s1) as [[r' s2] tr'].
      inversion Hs. subst. cbn in Hin.
      destruct Hin as [E | [E | []]]; [| discriminate].
      inversion E. subst. exists (Ok tt), s1. exact E1.
    - inversion Hs. subst. cbn in Hin. destruct Hin as [E | []].
      inversion E. subst. eexists. eexists. exact E1. }
  destruct Hst as (r1 & s1 & Hst). unfold store_token in Hst. rewrite Hd in Hst.
  cbn [negb] in Hst.
  unfold bind at 1 in Hst. rewrite assign_session_token_run in Hst.
  destruct (session_set_token d (world s)) as [[[] | ex0] w0];
    [| discriminate].
  cbn [snd].
  unfold bind, modify, scope, token, gets,
    new_token, lift_result, assign_token, ret, emit in Hst; cbn in Hst.
  destruct (_token s) as [old |]; cbn in Hst.
  - destruct (OAuth2Token.init _ _) as [t' | ex] eqn:Ei; [| discriminate].
    cbn in Hst. inversion Hst. subst t'.
    pose proof (init_scope_of _ _ Ei eq_refl) as Hn.
    rewrite normalize_scope_tuple in Hn. inversion Hn. reflexivity.
  - destruct (normalize_scope _) as [sc | ex] eqn:En; [| discriminate].
    cbn in Hst.
    destruct (OAuth2Token.init _ _) as [t' | ex] eqn:Ei; [| discriminate].
    cbn in Hst. inversion Hst. subst t'.
    pose proof (init_scope_of _ _ Ei eq_refl) as Hn.
    rewrite normalize_scope_tuple in Hn. inversion Hn as [Hsc].
    f_equal. symmetry. eapply normalize_scope_sorted, En.
Qed.

(** X18. When the renewal call of a refreshable flow raises, [request]
    raises the same exception: the token-expired event and the
    invocation of [refresh_token] have happened, no token is installed
    and no outbound call is made. *)
Theorem refresh_failure_aborts_request (f : Flow) (L : Listeners)
  (req : Request) (s s1 : Store) (t : OAuth2Token.t) (e : exn) (w2 : W) :
  f <> IMPLICIT_GRANT ->
  _token s = Some t ->
  OAuth2Token.is_expired (time_time (world s)) t OAuth2Token.default_margin
  = Ok true ->
  run_listeners (token_expired L) (TokenExpiredEvent t false) s
  = (Ok tt, s1, ([] : list Action)) ->
  _auto_refresh s1 = true ->
  match f with
  | CLIENT_CREDENTIALS =>
      session_fetch_token (WithSecret (_client_secret s1)) (world s1)
  | _ => session_refresh_token (world s1)
  end = (Raise e, w2) ->
  exists tr,
    request f L req false s = (Raise e, with_world w2 s1, tr)
    /\ count is_expired_event tr = 1%nat
    /\ count is_refresh tr = 1%nat
    /\ count is_installed tr = 0%nat
    /\ count is_outbound tr = 0%nat.
Proof.
  intros Hf Ht He Hd Hauto Hren.
  assert (Hreq : request f L req false s
                 = RefreshableOAuth2Session_request (_refresh_token_of f)
                     L req false s)
    by (destruct f; [reflexivity | contradiction | reflexivity]).
  rewrite Hreq. unfold RefreshableOAuth2Session_request.
  erewrite bind_ok; [| exact (token_is_expired_run s Ht He)].
  cbn [app]. unfold bind at 1. unfold bind at 1.
  rewrite notify_run. cbn [listeners_for]. rewrite Hd.
  unfold bind at 1. unfold gets at 1. rewrite Hauto. cbn [andb negb].
  destruct f; [| contradiction |].
  - unfold refresh_token, _refresh_token_of,
      ClientCredentialsSession__refresh_token,
      ClientCredentialsSession_fetch_token.
    unfold bind, emit, call_world, ret, token, gets. rewrite Hren.
    eexists. split; [reflexivity |]. repeat split.
  - unfold refresh_token, _refresh_token_of,
      AuthorizationCodeSession__refresh_token.
    unfold bind, emit, call_world, ret. rewrite Hren.
    eexists. split; [reflexivity |]. repeat split.
Qed.

Lemma install_and_return (L : Listeners) (d : dict) (s s' : Store)
  (v : option OAuth2Token.t) (tr : list Action) :
  bind (set_token L (Dict d)) (fun _ => token) s = (Ok v, s', tr) ->
  v = _token s' /\ count is_installed tr = 1%nat.
Proof.
  unfold bind. rewrite set_token_run.
  destruct (store_token_cases (Dict d) s)
    as [(e1 & s1 & E1 & _)
       | [(new & s1 & E1 & Hnew) | (new & e1 & s1 & E1 & Hnew)]]; rewrite E1.
  - discriminate.
  - destruct (run_listeners _ _ s1) as [[[u | ex] s2] tr']; [| discriminate].
    unfold token, gets. intro H. inversion H. subst. split; reflexivity.
  - discriminate.
Qed.

(** X19. When one of the four methods that obtain a token
    ([fetch_token] of the two refreshable sessions,
    [fetch_token_given_code], [read_token_from_callback_url]) returns,
    what it returns is the token the session then holds, and the token
    was assigned exactly once on the way. *)
Theorem fetchers_return_session_token (L : Listeners) (s s' : Store)
  (v : option OAuth2Token.t) (tr : list Action) (url code state : string) :
  ClientCredentialsSession_fetch_token L s = (Ok v, s', tr)
  \/ AuthorizationCodeSession_fetch_token L url s = (Ok v, s', tr)
  \/ AuthorizationCodeSession_fetch_token_given_code L code state s
     = (Ok v, s', tr)
  \/ read_token_from_callback_url L url s = (Ok v, s', tr) ->
  v = _token s' /\ count is_installed tr = 1%nat.
Proof.
  assert (Hgen : forall (a : Action) (op : W -> Result dict * W),
             is_installed a = false ->
             bind (emit a)
               (fun _ => bind (call_world op)
                  (fun tok => bind (set_token L (Dict tok)) (fun _ => token))) s
             = (Ok v, s', tr) ->
             v = _token s' /\ count is_installed tr = 1%nat).
  { intros a op Ha. unfold bind at 1. unfold emit at 1.
    unfold bind at 1. unfold call_world at 1.
    destruct (op (world s)) as [[d | ex] w]; [| discriminate].
    destruct (bind (set_token L (Dict d)) (fun _ => token) (with_world w s))
      as [[[v' | ex] s2] tr2] eqn:E; [| discriminate].
    intro H. inversion H. subst.
    destruct (install_and_return L d _ E) as (Hv & Hc).
    split; [exact Hv |].
    unfold count in *. cbn [app filter]. rewrite Ha. exact Hc. }
  intros [H | [H | [H | H]]].
  - unfold ClientCredentialsSession_fetch_token in H.
    unfold bind at 1 in H. unfold gets at 1 in H.
    destruct (bind (emit _) _ s) as [[r0 s0] t0] eqn:E.
    cbn [app] in H. inversion H. subst.
    refine (Hgen _ _ _ E); reflexivity.
  - unfold AuthorizationCodeSession_fetch_token in H. rewrite py_in_pairs in H.
    unfold bind at 1 in H. unfold gets at 1 in H.
    destruct (bind (emit _) _ s) as [[r0 s0] t0] eqn:E.
    cbn [app] in H. inversion H. subst.
    refine (Hgen _ _ _ E); reflexivity.
  - unfold AuthorizationCodeSession_fetch_token_given_code in H.
    unfold bind at 1 in H. unfold gets at 1 in H.
    destruct (bind (emit _) _ s) as [[r0 s0] t0] eqn:E.
    cbn [app] in H. inversion H. subst.
    refine (Hgen _ _ _ E); reflexivity.
  - unfold read_token_from_callback_url in H.
    refine (Hgen _ _ _ H); reflexivity.
Qed.

End MoreSessionProperties.

(* ------------------------------------------------------------------ *)
(** ** The further session properties in the scripted worlds *)

Lemma listeners_run_in_order_witness :
  Sessions.run_listeners (Request := string)
    ([Sessions.example_listener]
     ++ Sessions.example_failing_listener :: [Sessions.example_listener])%list
    (Sessions.TokenUpdatedEvent None None) Sessions.example_session
  = (Raise ValueError, Sessions.example_session, []).
Proof.
  exact (@listeners_run_in_order float string
           [Sessions.example_listener] [Sessions.example_listener]
           Sessions.example_failing_listener
           (Sessions.TokenUpdatedEvent None None)
           Sessions.example_session Sessions.example_session (Ok tt) eq_refl).
Defined.

Lemma set_token_outcomes_witness :
  Sessions.set_token (X := Sessions.validating_world)
    Sessions.example_listeners
    (Sessions.Token Sessions.example_vague_token) Sessions.example_session
  = (Raise ValueError,
     Sessions.mkStore (Some Sessions.example_vague_token) (PStr "secret")
       true (float_of_Z 5000),
     [Sessions.Installed Sessions.example_vague_token]).
Proof.
  exact (proj2 (@set_token_outcomes float string nat Sessions.validating_world
                  Sessions.example_listeners
                  (Sessions.Token Sessions.example_vague_token)
                  Sessions.example_session)
           ValueError eq_refl).
Defined.

Lemma request_without_expiry_witness :
  Sessions.request Sessions.CLIENT_CREDENTIALS Sessions.example_listeners
    "GET https://api.spotify.com/v1/me" false
    (Sessions.mkStore None (PStr "secret") true (float_of_Z 5000))
  = (Ok 200%nat, Sessions.mkStore None (PStr "secret") true (float_of_Z 5000),
     [Sessions.Outbound "GET https://api.spotify.com/v1/me" false None]).
Proof.
  apply (@request_without_expiry float string nat Sessions.example_world
           Sessions.CLIENT_CREDENTIALS Sessions.example_listeners
           "GET https://api.spotify.com/v1/me" false
           (Sessions.mkStore None (PStr "secret") true (float_of_Z 5000))).
  left. reflexivity.
Defined.

Lemma refreshable_request_without_refresh_witness :
  Sessions.request Sessions.AUTHORIZATION_CODE Sessions.example_listeners
    "GET https://api.spotify.com/v1/me" true Sessions.example_session
  = (Ok 200%nat, Sessions.example_session,
     [Sessions.Notified
        (Sessions.TokenExpiredEvent Sessions.example_old_token true);
      Sessions.Outbound "GET https://api.spotify.com/v1/me" true
        (Some Sessions.example_old_token)]).
Proof.
  apply (@refreshable_request_without_refresh float string nat
           Sessions.example_world Sessions.AUTHORIZATION_CODE
           Sessions.example_listeners "GET https://api.spotify.com/v1/me" true
           Sessions.example_session Sessions.example_session
           Sessions.example_old_token).
  - discriminate.
  - reflexivity.
  - reflexivity.
  - reflexivity.
  - left. reflexivity.
Defined.

Lemma token_without_scope_inherits_witness :
  exists r s' tr new,
    Sessions.set_token Sessions.example_listeners
      (Sessions.Dict [("access_token", PStr "BQDnew"); ("expires_in", PInt 3600)])
      Sessions.example_session = (r, s', tr)
    /\ In (Sessions.Installed new) tr
    /\ OAuth2Token.scope new = ["user-read-email"].
Proof.
  eexists. eexists. eexists. eexists.
  split; [reflexivity |]. split; [left; reflexivity |].
  exact (@token_without_scope_inherits float string nat Sessions.example_world
           Sessions.example_listeners
           [("access_token", PStr "BQDnew"); ("expires_in", PInt 3600)]
           Sessions.example_session _ _ _ _ eq_refl eq_refl
           (or_introl eq_refl)).
Defined.

Lemma refresh_failure_aborts_request_witness :
  exists tr,
    @Sessions.request float string nat Sessions.unreachable_world
      Sessions.CLIENT_CREDENTIALS Sessions.example_listeners
      "GET https://api.spotify.com/v1/me" false Sessions.example_session
    = (Raise (ExternalError "ConnectionError"), Sessions.example_session, tr)
    /\ Sessions.count Sessions.is_outbound tr = 0%nat.
Proof.
  assert (Hf : Sessions.CLIENT_CREDENTIALS <> Sessions.IMPLICIT_GRANT)
    by discriminate.
  destruct (@refresh_failure_aborts_request float string nat
              Sessions.unreachable_world Sessions.CLIENT_CREDENTIALS
              Sessions.example_listeners "GET https://api.spotify.com/v1/me"
              Sessions.example_session Sessions.example_session
              Sessions.example_old_token (ExternalError "ConnectionError")
              (float_of_Z 5000)
              Hf eq_refl eq_refl eq_refl eq_refl eq_refl)
    as (tr & E & _ & _ & _ & Ho).
  exists tr. split; assumption.
Defined.

Lemma fetchers_return_session_token_witness :
  exists v s' tr,
    Sessions.ClientCredentialsSession_fetch_token Sessions.example_listeners
      Sessions.example_session = (Ok v, s', tr)
    /\ v = Sessions._token s'
    /\ v = Some Sessions.example_new_token.
Proof.
  eexists. eexists. eexists. split; [reflexivity |].
  split; [| reflexivity].
  exact (proj1 (@fetchers_return_session_token float string nat
                  Sessions.example_world Sessions.example_listeners
                  Sessions.example_session _ _ _
                  "https://localhost/callback" "code" "state"
                  (or_introl eq_refl))).
Defined.

(* ------------------------------------------------------------------ *)
(** ** The scope check of the client *)

Lemma str_in_In (x : string) (l : list string) : str_in x l = true <-> In x l.
Proof.
  unfold str_in. rewrite existsb_exists. split.
  - intros (y & Hy & E). apply String.eqb_eq in E. subst. exact Hy.
  - intro H. exists x. split; [exact H | apply String.eqb_refl].
Qed.

Lemma sorted_set_spec (l : list string) :
  StronglySorted str_le (sorted_set l)
  /\ NoDup (sorted_set l)
  /\ forall x, In x (sorted_set l) <-> In x l.
Proof.
  unfold sorted_set. repeat split.
  - apply sorted_strongly.
  - eapply Permutation_NoDup; [apply sorted_perm | apply NoDup_nodup].
  - intro H. apply (nodup_In string_dec).
    eapply Permutation_in; [apply Permutation_sym, sorted_perm | exact H].
  - intro H. eapply Permutation_in; [apply sorted_perm |].
    apply (nodup_In string_dec). exact H.
Qed.

(** X20. [_ensure_scope] returns exactly when every needed scope (after
    the completion of the scopes that end with ["-"]) is among the
    current scopes.  Otherwise it raises [InsufficientScope], whose
    [missing_scope] is not empty, in ascending order and without
    duplicates, and holds exactly the needed scopes that are not
    current. *)
Theorem ensure_scope_checks (needed_scope : string)
  (current_scope : option (list string)) (public : option bool)
  (session_scope : list string) :
  let needed := map (complete_scope public) (split_whitespace needed_scope) in
  let current := match current_scope with Some c => c | None => session_scope end in
  (_ensure_scope needed_scope current_scope public session_scope = Returns tt
   <-> forall x, In x needed -> In x current)
  /\ (forall e,
        _ensure_scope needed_scope current_scope public session_scope = Raises e ->
        exists nd cur missing,
          e = InsufficientScope nd cur missing
          /\ missing <> []
          /\ StronglySorted str_le missing
          /\ NoDup missing
          /\ forall x, In x missing <-> (In x needed /\ ~ In x current)).
Proof.
  intros needed current. unfold _ensure_scope. fold needed. fold current.
  destruct (forallb (fun x => str_in x current) needed) eqn:Hall.
  - split.
    + split; [| reflexivity]. intros _ x Hx.
      rewrite forallb_forall in Hall. apply str_in_In. apply Hall, Hx.
    + intros e H. discriminate.
  - assert (Hnot : ~ forall x, In x needed -> In x current).
    { intro Hsub.
      assert (T : forallb (fun x => str_in x current) needed = true).
      { apply forallb_forall. intros x Hx. apply str_in_In. apply Hsub, Hx. }
      congruence. }
    split.
    + split; [discriminate | intro H; contradiction].
    + intros e H. inversion H. unfold InsufficientScope_init.
      eexists. eexists. eexists. split; [reflexivity |].
      destruct (sorted_set_spec
                  (filter (fun x => negb (str_in x current)) needed))
        as (Hs & Hn & Hm).
      assert (Hmem : forall x,
                 In x (sorted_set (filter (fun x => negb (str_in x current)) needed))
                 <-> In x needed /\ ~ In x current).
      { intro x. rewrite Hm, filter_In. split.
        - intros [Hx Hc]. split; [exact Hx |]. intro Hin.
          apply str_in_In in Hin. rewrite Hin in Hc. discriminate.
        - intros [Hx Hc]. split; [exact Hx |].
          destruct (str_in x current) eqn:E; [| reflexivity].
          apply str_in_In in E. contradiction. }
      split; [| split; [exact Hs | split; [exact Hn | exact Hmem]]].
      intro Hnil. apply Hnot. intros x Hx.
      destruct (str_in x current) eqn:E; [apply str_in_In; exact E |].
      exfalso.
      assert (Hin : In x (sorted_set
                            (filter (fun x => negb (str_in x current)) needed))).
      { apply Hmem. split; [exact Hx |]. intro Hc.
        apply str_in_In in Hc. congruence. }
      rewrite Hnil in Hin. exact Hin.
Qed.

